(** * st-core: the block engine and the kernel library

    A shallow embedding of [core/block.go] and [core/library.go].

    - Go's [interface{}] message is the inductive [Message]; a [float64] is a
      primitive binary64 float, so [+], [/], [==] and [<] are the IEEE ones.
    - Go maps are stdpp's [gmap]/[gset]; reading a missing key gives the zero
      value ([index]), as in Go.
    - A kernel mutates the maps it is handed; here it returns the new maps.
    - Run-time panics, [log.Fatal] and a goroutine parked in a [select] are
      explicit constructors of [Outcome].
    - Every [select] is resolved by a schedule, a list of [Event]s that says
      which case fires next. *)

From Stdlib Require Import Floats ZArith.
From stdpp Require Import gmap strings list fin_maps sets.

Set Warnings "-register-all".
Open Scope string_scope.
Open Scope list_scope.
Open Scope nat_scope.

(** ** Messages *)

Abbreviation Addr := nat (only parsing).        (* a heap address *)
Abbreviation RouteID := nat (only parsing).     (* a [RouteID] that is an index: see [call_at] *)
Abbreviation Connection := nat (only parsing).  (* [type Connection chan Message], by identity *)

(** [type Message interface{}]: the dynamic types that flow through the
    library. [MError p s] is a pointer [p] to an error value with text [s]
    ([*stcoreError], or the [error] of [time.ParseDuration]); [MStruct] is
    [struct{}{}]. *)
Inductive Message : Type :=
| MNil
| MFloat (f : float)
| MBool (b : bool)
| MString (s : string)
| MArray (arr : list Message)
| MObject (m : gmap string Message)
| MError (p : Addr) (s : string)
| MStruct.

Abbreviation MessageMap := (gmap RouteID Message).

(** Modelled from the spec: the [Store] handed to every kernel is declared
    outside the given sources; the spec describes it as a mapping from string
    key to message. No kernel of [library.go] touches it. *)
Abbreviation Store := (gmap string Message).

(** [type Manifest map[ManifestPair]struct{}], with
    [ManifestPair{out.Name, c}] the pair of an output's name and a
    connection. *)
Abbreviation Manifest := (gset (string * Connection)).

(** [m[k]] on a Go map: the zero value [nil] when the key is absent. *)
Definition index (m : MessageMap) (k : RouteID) : Message :=
  default MNil (m !! k).

(** [NewError(s)] returns [&stcoreError{s}], a fresh pointer; [p] is the
    address the allocator hands out. *)
Definition NewError (p : Addr) (s : string) : Message := MError p s.

Inductive Panic :=
| TypeAssertion      (* interface conversion: x.(T) without the comma-ok form *)
| IndexOutOfRange    (* index out of range *)
| SliceBounds        (* slice bounds out of range *)
| Uncomparable.      (* comparing uncomparable type *)

(** [x == y] on two interface values: [None] is the run-time panic raised
    when both hold the same uncomparable dynamic type. Pointers compare by
    address. *)
Definition go_eq (x y : Message) : option bool :=
  match x, y with
  | MNil, MNil => Some true
  | MFloat a, MFloat b => Some (PrimFloat.eqb a b)
  | MBool a, MBool b => Some (Bool.eqb a b)
  | MString a, MString b => Some (String.eqb a b)
  | MArray _, MArray _ => None
  | MObject _, MObject _ => None
  | MError p _, MError q _ => Some (Nat.eqb p q)
  | MStruct, MStruct => Some true
  | _, _ => Some false
  end.

(** [a[lo:hi]] on a slice. *)
Definition slice (arr : list Message) (lo hi : Z) : option (list Message) :=
  if bool_decide (0 ≤ lo ∧ lo ≤ hi ∧ hi ≤ Z.of_nat (length arr))%Z
  then Some (take (Z.to_nat hi - Z.to_nat lo) (drop (Z.to_nat lo) arr))
  else None.

(** ** Specs *)

Record Pin := { pin_Name : string }.

(** [Spec]. Its declaration is not in the sources and the two files disagree
    on the kernel's type: [library.go] builds kernels of five parameters,
    [block.go] calls [b.kernel] with three arguments. [K] is that type. *)
Record Spec (K : Type) := {
  Inputs : list Pin;
  Outputs : list Pin;
  Kernel : K
}.
Arguments Inputs {K} s.
Arguments Outputs {K} s.
Arguments Kernel {K} s.

(** ** What the engine and the library import

    [github.com/nikhan/go-fetch], [time], [math] and the order in which a
    [for ... range] visits the keys of a map are not fixed by the sources;
    they are parameters. An [error] result is its text. *)
Class Fetch := {
  Query : Type;
  fetch_dot : Query;                                      (* fetch.Parse(".") *)
  fetch_Run : Query → Message → Message * option string   (* fetch.Run *)
}.

Class Std := {
  time_ParseDuration : string → Z + string;
  math_Pow : float → float → float;
  math_Mod : float → float → float
}.

Class Order := {
  range : gset Connection → list Connection
}.

Section Core.
Context `{F : Fetch} `{L : Std} `{O : Order}.

(** ** Interrupts

    [type InterruptFunc func() bool]. The closures sent on the interrupt
    channel are the five that [block.go] builds; each is named after the
    method that builds it. *)
Inductive InterruptFunc :=
| RouteValue (id : RouteID) (v : Message)
| RoutePath (id : RouteID) (p : Query)
| Connect (id : RouteID) (c : Connection)
| Disconnect (id : RouteID) (c : Connection)
| Stop.

(** ** Schedules *)

(** One resolved [select]: the case that fires. *)
Inductive Event :=
| Arrive (m : Message)             (* [case m := <-input.C] *)
| Delivered                        (* [case c <- v] *)
| TimerFired                       (* [case <-timer.C] *)
| Interrupted (f : InterruptFunc). (* [case f := <-InterruptChan] *)

(** How a call ends. [Parked]: the goroutine waits in a [select] that the
    schedule does not resolve. [Exited]: [log.Fatal], the process is gone. *)
Inductive Outcome (A : Type) :=
| Returned (a : A) (interrupt : option InterruptFunc) (rest : list Event)
| Panicked (why : Panic)
| Exited (a : A) (err : string)
| Parked (a : A).
Arguments Returned {A} a interrupt rest.
Arguments Panicked {A} why.
Arguments Exited {A} a err.
Arguments Parked {A} a.

(** ** The library ([library.go]) *)

(** [func(in, out, internal MessageMap, s Store, i chan Interrupt) Interrupt].
    The result carries [out] and [internal] as the call leaves them; the
    first argument is the next free heap address, the last one the schedule
    of the selects the kernel enters. *)
Definition KernelFunc : Type :=
  Addr → MessageMap → MessageMap → MessageMap → Store → list Event →
  Outcome (MessageMap * MessageMap).

Definition First : Spec KernelFunc := {|
  Inputs := [ {| pin_Name := "in" |} ];
  Outputs := [ {| pin_Name := "first" |} ];
  Kernel := λ _ inp out internal s i,
    match internal !! 0 with
    | None => Returned (<[0 := MBool true]> out, <[0 := MStruct]> internal) None i
    | Some _ => Returned (<[0 := MBool false]> out, internal) None i
    end
|}.

Definition Delay : Spec KernelFunc := {|
  Inputs := [ {| pin_Name := "passthrough" |}; {| pin_Name := "duration" |} ];
  Outputs := [ {| pin_Name := "passthrough" |} ];
  Kernel := λ p inp out internal s i,
    match index inp 1 with
    | MString d =>
        match time_ParseDuration d with
        | inr err => Returned (<[0 := MError p err]> out, internal) None i
        | inl t =>
            match i with
            | TimerFired :: i' => Returned (<[0 := index inp 0]> out, internal) None i'
            | Interrupted f :: i' => Returned (out, internal) (Some f) i'
            | _ => Parked (out, internal)
            end
        end
    | _ => Panicked TypeAssertion
    end
|}.

Definition Set_ : Spec KernelFunc := {|
  Inputs := [ {| pin_Name := "key" |}; {| pin_Name := "value" |} ];
  Outputs := [ {| pin_Name := "object" |} ];
  Kernel := λ _ inp out internal s i,
    match index inp 0 with
    | MString k =>
        Returned (<[0 := MObject {[ k := index inp 1 ]}]> out, internal) None i
    | _ => Panicked TypeAssertion
    end
|}.

(** [Log] prints [json.Marshal(in[0])] on standard output, which is not
    modelled; it writes no map. *)
Definition Log : Spec KernelFunc := {|
  Inputs := [ {| pin_Name := "log" |} ];
  Outputs := [];
  Kernel := λ _ inp out internal s i, Returned (out, internal) None i
|}.

Definition Sink : Spec KernelFunc := {|
  Inputs := [ {| pin_Name := "in" |} ];
  Outputs := [];
  Kernel := λ _ inp out internal s i, Returned (out, internal) None i
|}.

Definition Latch : Spec KernelFunc := {|
  Inputs := [ {| pin_Name := "in" |}; {| pin_Name := "ctrl" |} ];
  Outputs := [ {| pin_Name := "out" |}; {| pin_Name := "out" |} ];
  Kernel := λ p inp out internal s i,
    match index inp 1 with
    | MBool controlSignal =>
        if controlSignal
        then Returned (<[1 := MNil]> (<[0 := index inp 0]> out), internal) None i
        else Returned (<[0 := MNil]> (<[1 := index inp 0]> out), internal) None i
    | _ => Returned (<[0 := NewError p "Latch ctrl requires bool"]> out, internal) None i
    end
|}.

Definition Gate : Spec KernelFunc := {|
  Inputs := [ {| pin_Name := "in" |}; {| pin_Name := "ctrl" |} ];
  Outputs := [ {| pin_Name := "out" |} ];
  Kernel := λ _ inp out internal s i,
    Returned (<[0 := index inp 0]> out, internal) None i
|}.

Definition Identity : Spec KernelFunc := {|
  Inputs := [ {| pin_Name := "in" |} ];
  Outputs := [ {| pin_Name := "out" |} ];
  Kernel := λ _ inp out internal s i,
    Returned (<[0 := index inp 0]> out, internal) None i
|}.

Definition Head : Spec KernelFunc := {|
  Inputs := [ {| pin_Name := "in" |} ];
  Outputs := [ {| pin_Name := "head" |}; {| pin_Name := "tail" |} ];
  Kernel := λ p inp out internal s i,
    match index inp 0 with
    | MArray arr =>
        match arr !! 0 with
        | None => Panicked IndexOutOfRange
        | Some x =>
            match slice arr 1 (Z.of_nat (length arr)) with
            | None => Panicked SliceBounds
            | Some rest =>
                Returned (<[1 := MArray rest]> (<[0 := x]> out), internal) None i
            end
        end
    | _ => Returned (<[0 := NewError p "head requires an array"]> out, internal) None i
    end
|}.

Definition Tail : Spec KernelFunc := {|
  Inputs := [ {| pin_Name := "in" |} ];
  Outputs := [ {| pin_Name := "tail" |}; {| pin_Name := "head" |} ];
  Kernel := λ p inp out internal s i,
    match index inp 0 with
    | MArray arr =>
        match arr !! length arr with
        | None => Panicked IndexOutOfRange
        | Some x =>
            match slice arr 0 (Z.of_nat (length arr) - 1) with
            | None => Panicked SliceBounds
            | Some rest =>
                Returned (<[1 := MArray rest]> (<[0 := x]> out), internal) None i
            end
        end
    | _ => Returned (<[0 := NewError p "tail requires an array"]> out, internal) None i
    end
|}.

Definition Append : Spec KernelFunc := {|
  Inputs := [ {| pin_Name := "element" |}; {| pin_Name := "array" |} ];
  Outputs := [ {| pin_Name := "array" |} ];
  Kernel := λ p inp out internal s i,
    match index inp 1 with
    | MArray arr =>
        Returned (<[0 := MArray (arr ++ [index inp 0])]> out, internal) None i
    | _ => Returned (<[0 := NewError p "Append requires an array"]> out, internal) None i
    end
|}.

(** The eight kernels from [Addition] to [LessThan] share one body: two
    comma-ok assertions to [float64], each with its own error text, then the
    operation. *)
Definition dyad (in0 in1 result : string) (msg0 msg1 : string)
    (op : float → float → Message) : Spec KernelFunc := {|
  Inputs := [ {| pin_Name := in0 |}; {| pin_Name := in1 |} ];
  Outputs := [ {| pin_Name := result |} ];
  Kernel := λ p inp out internal s i,
    match index inp 0 with
    | MFloat a =>
        match index inp 1 with
        | MFloat b => Returned (<[0 := op a b]> out, internal) None i
        | _ => Returned (<[0 := NewError p msg1]> out, internal) None i
        end
    | _ => Returned (<[0 := NewError p msg0]> out, internal) None i
    end
|}.

Definition Addition := dyad "addend" "addend" "sum"
  "Addition requires floats" "Addition requires floats"
  (λ a1 a2, MFloat (a1 + a2)%float).
Definition Subtraction := dyad "minuend" "subtrahend" "difference"
  "Subtraction requires floats" "Subtraction requires floats"
  (λ minuend subtrahend, MFloat (minuend - subtrahend)%float).
Definition Multiplication := dyad "multiplicand" "multiplicand" "product"
  "Multiplication requires floats" "Multiplication requires floats"
  (λ m1 m2, MFloat (m1 * m2)%float).
Definition Division := dyad "dividend" "divisor" "quotient"
  "Division requires floats" "Division requires floats"
  (λ d1 d2, MFloat (d1 / d2)%float).
Definition Exponentiation := dyad "base" "exponent" "power"
  "Exponentiation requires floats" "Exponentiation requires floats"
  (λ d1 d2, MFloat (math_Pow d1 d2)).
Definition Modulation := dyad "dividend" "divisor" "remainder"
  "Modulation requires floats" "Modultion requires floats"
  (λ d1 d2, MFloat (math_Mod d1 d2)).
Definition GreaterThan := dyad "value" "value" "IsGreaterThan"
  "GreaterThan requires floats" "GreaterThan requires floats"
  (λ d1 d2, MBool (PrimFloat.ltb d2 d1)).
Definition LessThan := dyad "value" "value" "IsLessThan"
  "LessThan requires floats" "LessThan requires floats"
  (λ d1 d2, MBool (PrimFloat.ltb d1 d2)).

Definition EqualTo : Spec KernelFunc := {|
  Inputs := [ {| pin_Name := "value" |}; {| pin_Name := "value" |} ];
  Outputs := [ {| pin_Name := "IsEqualTo" |} ];
  Kernel := λ _ inp out internal s i,
    match go_eq (index inp 0) (index inp 1) with
    | None => Panicked Uncomparable
    | Some b => Returned (<[0 := MBool b]> out, internal) None i
    end
|}.

Definition NotEqualTo : Spec KernelFunc := {|
  Inputs := [ {| pin_Name := "value" |}; {| pin_Name := "value" |} ];
  Outputs := [ {| pin_Name := "IsNotEqualTo" |} ];
  Kernel := λ _ inp out internal s i,
    match go_eq (index inp 0) (index inp 1) with
    | None => Panicked Uncomparable
    | Some b => Returned (<[0 := MBool (negb b)]> out, internal) None i
    end
|}.

(** ** The engine ([block.go]) *)

(** The kernel as [Serve] calls it:
    [b.kernel(b.state.inputValues, b.state.outputValues, b.routing.InterruptChan)].
    The result carries the output map as the call leaves it. *)
Definition BlockKernel : Type :=
  MessageMap → MessageMap → list Event → Outcome MessageMap.

Record Route := {
  route_Name : string;
  Path : Query;
  Value : option Message;     (* [*Message], [nil] when nothing is pinned *)
  C : Connection
}.

Record Output := {
  out_Name : string;
  Connections : gset Connection
}.

Record BlockState := {
  inputValues : MessageMap;
  outputValues : MessageMap;
  manifest : Manifest;
  Processed : bool
}.

Record BlockRouting := {
  routing_Inputs : list Route;
  routing_Outputs : list Output;
  InterruptChan : Connection
}.

Record Block := {
  state : BlockState;
  routing : BlockRouting;
  kernel : BlockKernel
}.

Definition with_state (b : Block) (st : BlockState) : Block :=
  {| state := st; routing := routing b; kernel := kernel b |}.
Definition with_routing (b : Block) (r : BlockRouting) : Block :=
  {| state := state b; routing := r; kernel := kernel b |}.
Definition with_inputValues (b : Block) (iv : MessageMap) : Block :=
  with_state b {| inputValues := iv; outputValues := outputValues (state b);
                  manifest := manifest (state b); Processed := Processed (state b) |}.
Definition with_outputValues (b : Block) (ov : MessageMap) : Block :=
  with_state b {| inputValues := inputValues (state b); outputValues := ov;
                  manifest := manifest (state b); Processed := Processed (state b) |}.
Definition with_manifest (b : Block) (mf : Manifest) : Block :=
  with_state b {| inputValues := inputValues (state b);
                  outputValues := outputValues (state b);
                  manifest := mf; Processed := Processed (state b) |}.
Definition with_Processed (b : Block) (p : bool) : Block :=
  with_state b {| inputValues := inputValues (state b);
                  outputValues := outputValues (state b);
                  manifest := manifest (state b); Processed := p |}.

(** [NewBlock]. [make(chan ...)] hands out the channels [ch], [ch+1], ... *)
Definition NewBlock (s : Spec BlockKernel) (ch : Connection) : Block := {|
  state := {| inputValues := ∅; outputValues := ∅; manifest := ∅;
              Processed := false |};
  routing := {|
    routing_Inputs :=
      imap (λ k v, {| route_Name := pin_Name v; Path := fetch_dot;
                      Value := None; C := ch + k |}) (Inputs s);
    routing_Outputs :=
      (λ v, {| out_Name := pin_Name v; Connections := ∅ |}) <$> Outputs s;
    InterruptChan := ch + length (Inputs s) |};
  kernel := Kernel s
|}.

(** Calling an [InterruptFunc] under the write lock: the routing it leaves
    and the boolean it returns, or [None] when indexing [Inputs] or
    [Outputs] panics. *)
Definition call (f : InterruptFunc) (r : BlockRouting) : option (BlockRouting * bool) :=
  match f with
  | RouteValue id v =>
      inp ← routing_Inputs r !! id;
      Some ({| routing_Inputs :=
                 <[id := {| route_Name := route_Name inp; Path := Path inp;
                            Value := Some v; C := C inp |}]> (routing_Inputs r);
               routing_Outputs := routing_Outputs r;
               InterruptChan := InterruptChan r |}, true)
  | RoutePath id p =>
      inp ← routing_Inputs r !! id;
      Some ({| routing_Inputs :=
                 <[id := {| route_Name := route_Name inp; Path := p;
                            Value := None; C := C inp |}]> (routing_Inputs r);
               routing_Outputs := routing_Outputs r;
               InterruptChan := InterruptChan r |}, true)
  | Connect id c =>
      out ← routing_Outputs r !! id;
      Some ({| routing_Inputs := routing_Inputs r;
               routing_Outputs :=
                 <[id := {| out_Name := out_Name out;
                            Connections := {[ c ]} ∪ Connections out |}]>
                   (routing_Outputs r);
               InterruptChan := InterruptChan r |}, true)
  | Disconnect id c =>
      out ← routing_Outputs r !! id;
      Some ({| routing_Inputs := routing_Inputs r;
               routing_Outputs :=
                 <[id := {| out_Name := out_Name out;
                            Connections := Connections out ∖ {[ c ]} |}]>
                   (routing_Outputs r);
               InterruptChan := InterruptChan r |}, true)
  | Stop => Some (r, false)
  end.

(** [RouteID] is a Go [int], and the methods [RouteValue], [RoutePath],
    [Connect] and [Disconnect] take any: indexing [Inputs] or [Outputs]
    with a negative id panics as indexing past the end does. [call_at mk id]
    is the call of the interrupt that the method [mk] builds for the
    integer [id]. *)
Definition call_at (mk : RouteID → InterruptFunc) (id : Z) (r : BlockRouting)
    : option (BlockRouting * bool) :=
  if decide (0 ≤ id)%Z then call (mk (Z.to_nat id)) r else None.

(** [receive]: the loop over [b.routing.Inputs] from index [id] on. *)
Fixpoint receive_from (id : RouteID) (inputs : list Route) (iv : MessageMap)
    (evs : list Event) : Outcome MessageMap :=
  match inputs with
  | [] => Returned iv None evs
  | input :: inputs' =>
      match iv !! id with
      | Some _ => receive_from (S id) inputs' iv evs
      | None =>
          match Value input with
          | Some v => receive_from (S id) inputs' (<[id := v]> iv) evs
          | None =>
              match evs with
              | Arrive m :: evs' =>
                  match fetch_Run (Path input) m with
                  | (v, Some err) => Exited (<[id := v]> iv) err
                  | (v, None) => receive_from (S id) inputs' (<[id := v]> iv) evs'
                  end
              | Interrupted f :: evs' => Returned iv (Some f) evs'
              | _ => Parked iv
              end
          end
      end
  end.

Definition receive (b : Block) (evs : list Event) : Outcome MessageMap :=
  receive_from 0 (routing_Inputs (routing b)) (inputValues (state b)) evs.

(** What a run of the engine lets an observer see. *)
Inductive Obs :=
| Invoked (ret : option InterruptFunc)           (* the kernel ran and returned [ret] *)
| Sent (id : RouteID) (c : Connection) (m : Message)  (* [c <- outputValues[id]] went through *)
| Called (f : InterruptFunc) (ok : bool)         (* [interrupt()] returned [ok] *)
| Cranked (outs : list Output).                  (* [crank] ran; the outputs at that time *)

(** [broadcast], inner loop: the connections [cs] of output [id] still to
    visit. [log] collects the sends that went through. *)
Fixpoint deliver (id : RouteID) (name : string) (v : Message)
    (cs : list Connection) (mf : Manifest) (log : list Obs)
    (evs : list Event) : Outcome (Manifest * list Obs) :=
  match cs with
  | [] => Returned (mf, log) None evs
  | c :: cs' =>
      if decide ((name, c) ∈ mf) then deliver id name v cs' mf log evs
      else
        match evs with
        | Delivered :: evs' =>
            deliver id name v cs' ({[ (name, c) ]} ∪ mf) (log ++ [Sent id c v]) evs'
        | Interrupted f :: evs' => Returned (mf, log) (Some f) evs'
        | _ => Parked (mf, log)
        end
  end.

(** [broadcast], outer loop: the outputs from index [id] on. *)
Fixpoint broadcast_from (id : RouteID) (outs : list Output) (ov : MessageMap)
    (mf : Manifest) (log : list Obs) (evs : list Event)
    : Outcome (Manifest * list Obs) :=
  match outs with
  | [] => Returned (mf, log) None evs
  | out :: outs' =>
      if decide (size (Connections out) = 0) then
        match evs with
        | Interrupted f :: evs' => Returned (mf, log) (Some f) evs'
        | _ => Parked (mf, log)
        end
      else
        match deliver id (out_Name out) (index ov id) (range (Connections out))
                mf log evs with
        | Returned (mf', log') None evs' =>
            broadcast_from (S id) outs' ov mf' log' evs'
        | r => r
        end
  end.

Definition broadcast (b : Block) (evs : list Event) : Outcome (Manifest * list Obs) :=
  broadcast_from 0 (routing_Outputs (routing b)) (outputValues (state b))
    (manifest (state b)) [] evs.

(** [for k, _ := range m { delete(m, k) }] *)
Definition delete_all (m : MessageMap) : MessageMap :=
  foldr delete m (map_to_list m).*1.

Definition delete_pairs (mf : Manifest) : Manifest :=
  foldr (λ k acc, acc ∖ {[ k ]}) mf (elements mf).

Definition crank (b : Block) : Block :=
  with_state b {| inputValues := delete_all (inputValues (state b));
                  outputValues := delete_all (outputValues (state b));
                  manifest := delete_pairs (manifest (state b));
                  Processed := false |}.

(** How [Serve] ends. *)
Inductive Exit :=
| Stopped                (* an interrupt returned [false]: [Serve] returns *)
| Crashed (why : Panic)  (* a panic unwinds the goroutine *)
| Fatal (err : string)   (* [log.Fatal]: the process exits *)
| Waiting                (* parked in a [select] *)
| Running.               (* the fuel ran out; the loop goes on *)

(** One pass through the body of the inner [for] of [Serve]. *)
Inductive Pass :=
| Next (b : Block) (log : list Obs) (rest : list Event)   (* [crank] ran *)
| Break (b : Block) (log : list Obs) (f : InterruptFunc) (rest : list Event)
| Halt (b : Block) (log : list Obs) (e : Exit).

(** From [b.state.Processed = true] to [b.crank()]. *)
Definition finish (b : Block) (log : list Obs) (evs : list Event) : Pass :=
  let b := with_Processed b true in
  match broadcast b evs with
  | Returned (mf, sent) None evs' =>
      Next (crank (with_manifest b mf))
           (log ++ sent ++ [Cranked (routing_Outputs (routing b))]) evs'
  | Returned (mf, sent) (Some f) evs' =>
      Break (with_manifest b mf) (log ++ sent) f evs'
  | Panicked why => Halt b log (Crashed why)
  | Exited (mf, sent) err => Halt (with_manifest b mf) (log ++ sent) (Fatal err)
  | Parked (mf, sent) => Halt (with_manifest b mf) (log ++ sent) Waiting
  end.

Definition pass (b : Block) (evs : list Event) : Pass :=
  match receive b evs with
  | Returned iv (Some f) evs' => Break (with_inputValues b iv) [] f evs'
  | Returned iv None evs' =>
      let b := with_inputValues b iv in
      if Processed (state b) then finish b [] evs'
      else
        match kernel b (inputValues (state b)) (outputValues (state b)) evs' with
        | Returned ov (Some f) evs'' =>
            Break (with_outputValues b ov) [Invoked (Some f)] f evs''
        | Returned ov None evs'' =>
            finish (with_outputValues b ov) [Invoked None] evs''
        | Panicked why => Halt b [] (Crashed why)
        | Exited ov err => Halt (with_outputValues b ov) [] (Fatal err)
        | Parked ov => Halt (with_outputValues b ov) [] Waiting
        end
  | Panicked why => Halt b [] (Crashed why)
  | Exited iv err => Halt (with_inputValues b iv) [] (Fatal err)
  | Parked iv => Halt (with_inputValues b iv) [] Waiting
  end.

Record Run := {
  final : Block;
  trace : list Obs;
  exit : Exit
}.

Definition after (log : list Obs) (r : Run) : Run :=
  {| final := final r; trace := log ++ trace r; exit := exit r |}.

(** [Serve]. The read and write locks protect [routing] from other
    goroutines and are not modelled: here only [Serve] touches the block.
    [fuel] bounds the number of passes through the inner loop body. *)
Fixpoint Serve (fuel : nat) (b : Block) (evs : list Event) : Run :=
  match fuel with
  | 0 => {| final := b; trace := []; exit := Running |}
  | S fuel' =>
      match pass b evs with
      | Next b' log evs' => after log (Serve fuel' b' evs')
      | Break b' log f evs' =>
          match call f (routing b') with
          | None => {| final := b'; trace := log; exit := Crashed IndexOutOfRange |}
          | Some (r, false) =>
              {| final := with_routing b' r; trace := log ++ [Called f false];
                 exit := Stopped |}
          | Some (r, true) =>
              after (log ++ [Called f true]) (Serve fuel' (with_routing b' r) evs')
          end
      | Halt b' log e => {| final := b'; trace := log; exit := e |}
      end
  end.

(** A run that stands at the start of a cycle: [Serve] is still in its
    loop, and either it has done nothing yet or the last thing it did was
    a [crank]. *)
Definition at_cycle_start (r : Run) : Prop :=
  exit r = Running
  ∧ (trace r = [] ∨ ∃ log outs, trace r = log ++ [Cranked outs]).

(** The completed cycles of a trace: what was observed from the start of
    the cycle to its [crank], with the outputs at the time of the crank. *)
Fixpoint cycles_from (cur : list Obs) (tr : list Obs) : list (list Obs * list Output) :=
  match tr with
  | [] => []
  | Cranked outs :: tr' => (cur, outs) :: cycles_from [] tr'
  | o :: tr' => cycles_from (cur ++ [o]) tr'
  end.

Definition cycles (tr : list Obs) : list (list Obs * list Output) :=
  cycles_from [] tr.

Definition is_sent (id : RouteID) (c : Connection) (o : Obs) : bool :=
  match o with
  | Sent id' c' _ => bool_decide (id' = id ∧ c' = c)
  | _ => false
  end.

Definition is_invoked (o : Obs) : bool :=
  match o with Invoked _ => true | _ => false end.

Definition is_completed (o : Obs) : bool :=
  match o with Invoked None => true | _ => false end.

(** The number of messages that output [id] sent to connection [c]. *)
Definition sent_to (id : RouteID) (c : Connection) (log : list Obs) : nat :=
  length (filter (λ o, is_sent id c o) log).

(** The number of kernel invocations, and of those that returned [nil]. *)
Definition invocations (log : list Obs) : nat :=
  length (filter (λ o, is_invoked o) log).

Definition completions (log : list Obs) : nat :=
  length (filter (λ o, is_completed o) log).

(** ** The manifest as a checkpoint *)

(** The (output, connection) pairs a log sent a message to, in order. *)
Definition sends (log : list Obs) : list (RouteID * Connection) :=
  omap (λ o, match o with Sent id c _ => Some (id, c) | _ => None end) log.

Definition is_cranked (o : Obs) : bool :=
  match o with Cranked _ => true | _ => false end.

(** The manifest [mf] is a checkpoint of the log of the current cycle, for
    outputs named [ns]: it holds a pair for every send of the log and
    nothing else, and no (output, connection) was sent two messages. *)
Record checkpoint (ns : list string) (mf : Manifest) (log : list Obs) : Prop := {
  sent_recorded :
    ∀ id c, (id, c) ∈ sends log → ∃ n, ns !! id = Some n ∧ (n, c) ∈ mf;
  recorded_sent :
    ∀ n c, (n, c) ∈ mf → ∃ id, ns !! id = Some n ∧ (id, c) ∈ sends log;
  sent_once : NoDup (sends log)
}.

(** The payload of an outcome, when there is one. *)
Definition payload {A : Type} (r : Outcome A) : option A :=
  match r with
  | Returned a _ _ | Exited a _ | Parked a => Some a
  | Panicked _ => None
  end.

(** A log in which no [crank] ran. *)
Definition quiet (log : list Obs) : Prop :=
  Forall (λ o, is_cranked o = false) log.

(** A log made of sends only. *)
Definition only_sends (log : list Obs) : Prop :=
  Forall (λ o, match o with Sent _ _ _ => True | _ => False end) log.

(** What [deliver] and [broadcast_from] do to the manifest and the log they
    are handed: they add sends to the log and pairs to the manifest, and
    keep the manifest a checkpoint of the current cycle. *)
Record grows (ns : list string) (cur : list Obs)
    (before after : Manifest * list Obs) : Prop := {
  grows_checkpoint :
    checkpoint ns before.1 (cur ++ before.2) →
    checkpoint ns after.1 (cur ++ after.2);
  grows_manifest : before.1 ⊆ after.1;
  grows_log : ∃ sent, after.2 = before.2 ++ sent ∧ only_sends sent
}.

(** What [Serve] keeps true of a block and the log of its current cycle:
    the manifest is a checkpoint of the log, under the names the outputs
    had from the start. *)
Definition checkpointed (ns : list string) (b : Block) (log : list Obs) : Prop :=
  out_Name <$> routing_Outputs (routing b) = ns
  ∧ checkpoint ns (manifest (state b)) log.

(** What the kernel returned the last time it was invoked in [log]. *)
Definition last_invoked (log : list Obs) : option (option InterruptFunc) :=
  last (omap (λ o, match o with Invoked ret => Some ret | _ => None end) log).

(** The kernel returned [nil] once in [log], and that was its last
    invocation. *)
Definition completed (log : list Obs) : Prop :=
  completions log = 1 ∧ last_invoked log = Some None.

(** [Serve] also keeps [Processed] in step with the log of the current
    cycle: it says whether the kernel has returned [nil] in this cycle. *)
Definition ran_once (b : Block) (log : list Obs) : Prop :=
  if Processed (state b) then completed log else completions log = 0.

(** [range] visits every key of the map, each once. *)
Definition range_visits_all : Prop :=
  ∀ s : gset Connection, range s ≡ₚ elements s.

(** In the cycle [cyc], no output other than [id] that has the name [name]
    sent a message to [c]. The manifest is keyed by output name and
    connection, so such a send makes [broadcast] skip [c] on output [id]. *)
Definition not_served_by_namesake
    (cyc : list Obs * list Output) (id : RouteID) (name : string)
    (c : Connection) : Prop :=
  ∀ id' out', id' ≠ id → cyc.2 !! id' = Some out' → out_Name out' = name →
              sent_to id' c cyc.1 = 0.

(** A completed cycle in which every connection of every output got one
    message from that output, unless an output of the same name had
    served it. *)
Definition delivered_once (cyc : list Obs * list Output) : Prop :=
  ∀ id out c,
    cyc.2 !! id = Some out → c ∈ Connections out →
    not_served_by_namesake cyc id (out_Name out) c →
    sent_to id c cyc.1 = 1.

(** What [broadcast] gives a completed cycle: no output sent two messages
    to one connection; every output had a connection; and when [range]
    visits all connections, every connection was served. *)
Definition served (ns : list string) (cyc : list Obs * list Output) : Prop :=
  NoDup (sends cyc.1)
  ∧ Forall (λ out, size (Connections out) ≠ 0) cyc.2
  ∧ (range_visits_all → delivered_once cyc).

(** ** The rest of the two files *)

(** [Input]: [b.routing.Inputs[id]], taken under the read lock; [None] is
    the index-out-of-range panic. *)
Definition Input (b : Block) (id : RouteID) : option Route :=
  routing_Inputs (routing b) !! id.

(** The specs that [GetLibrary] lists and that other files of the package
    define: the random sources and the key-value kernels. *)
Class Elsewhere := {
  UniformRandom : Spec KernelFunc;
  NormalRandom : Spec KernelFunc;
  ZipfRandom : Spec KernelFunc;
  PoissonRandom : Spec KernelFunc;
  BernoulliRandom : Spec KernelFunc;
  kvGet : Spec KernelFunc;
  kvSet : Spec KernelFunc;
  kvClear : Spec KernelFunc;
  kvDump : Spec KernelFunc;
  kvDelete : Spec KernelFunc
}.

(** [GetLibrary]: the map literal, entry by entry. *)
Definition GetLibrary {E : Elsewhere} : gmap string (Spec KernelFunc) :=
  list_to_map [
    (* mechanisms *)
    ("delay", Delay); ("set", Set_); ("log", Log); ("sink", Sink);
    ("latch", Latch); ("gate", Gate); ("identity", Identity);
    ("append", Append); ("tail", Tail); ("head", Head);
    (* dyads *)
    ("+", Addition); ("-", Subtraction); ("×", Multiplication);
    ("÷", Division); ("^", Exponentiation); ("mod", Modulation);
    (">", GreaterThan); ("<", LessThan); ("==", EqualTo); ("!=", NotEqualTo);
    (* random sources *)
    ("uniform", UniformRandom); ("normal", NormalRandom); ("Zipf", ZipfRandom);
    ("Poisson", PoissonRandom); ("Bernoulli", BernoulliRandom);
    (* keyvalue *)
    ("kvGet", kvGet); ("kvSet", kvSet); ("kvClear", kvClear);
    ("kvDump", kvDump); ("kvDelete", kvDelete);
    (* stateful *)
    ("first", First)
  ].

(** The names under which [GetLibrary] files the specs of [Elsewhere]. *)
Definition elsewhere_names : list string :=
  [ "uniform"; "normal"; "Zipf"; "Poisson"; "Bernoulli";
    "kvGet"; "kvSet"; "kvClear"; "kvDump"; "kvDelete" ].

(** The outputs a spec declares, as indices. *)
Definition declared {K : Type} (s : Spec K) : gset RouteID :=
  list_to_set (seq 0 (length (Outputs s))).

(** The contract of a kernel that returned [nil]: it wrote every output
    the spec declares, or an error on output 0. *)
Definition populated (s : Spec KernelFunc) (out : MessageMap) : Prop :=
  (∀ k, k < length (Outputs s) → is_Some (out !! k))
  ∨ (∃ p e, out !! 0 = Some (MError p e)).

(** The contract of the library's kernels, clause by clause. A kernel
    writes no output the spec does not declare ... *)
Definition writes_declared_only (spec : Spec KernelFunc) : Prop :=
  ∀ p inp out internal s i,
    match payload (Kernel spec p inp out internal s i) with
    | Some (out', _) => dom out' ⊆ dom out ∪ declared spec
    | None => True
    end.

(** ... and when it returns [nil], it leaves every declared output, or an
    error on output 0, in the empty output map it was handed. *)
Definition populates_or_reports (spec : Spec KernelFunc) : Prop :=
  ∀ p inp internal s i,
    match Kernel spec p inp ∅ internal s i with
    | Returned (out', _) None _ => populated spec out'
    | _ => True
    end.

(** An interrupt it returns is the one it took from the channel, and it
    takes nothing else from there; it waits for the timer at most. *)
Definition returns_received_interrupt (spec : Spec KernelFunc) : Prop :=
  ∀ p inp out internal s i,
    match Kernel spec p inp out internal s i with
    | Returned (out', _) (Some f) rest => i = Interrupted f :: rest ∧ out' = out
    | Returned _ None rest => rest = i ∨ i = TimerFired :: rest
    | _ => True
    end.

(** It leaves the internal map as it found it. *)
Definition keeps_internal (spec : Spec KernelFunc) : Prop :=
  ∀ p inp out internal s i,
    match payload (Kernel spec p inp out internal s i) with
    | Some (_, internal') => internal' = internal
    | None => True
    end.

(** It does not panic. *)
Definition never_panics (spec : Spec KernelFunc) : Prop :=
  ∀ p inp out internal s i,
    match Kernel spec p inp out internal s i with
    | Panicked _ => False
    | _ => True
    end.

(** [o] is a send of what the output map [ov] holds, or no send at all. *)
Definition carries (ov : MessageMap) (o : Obs) : Prop :=
  match o with
  | Sent id _ m => m = index ov id
  | _ => True
  end.

(** A log of a cycle in its order: the invocations of the kernel that
    returned an interrupt, then the one that returned [nil], then the sends
    of what that one left in the output map [ov]. *)
Definition in_order (ov : MessageMap) (log : list Obs) : Prop :=
  ∃ pre post, log = pre ++ Invoked None :: post
              ∧ sends pre = [] ∧ Forall (carries ov) post.

(** What [Serve] keeps true of the log of the current cycle: nothing is
    sent before [Processed] is set, and what is sent after is what the
    output map holds. *)
Definition broadcasting (b : Block) (log : list Obs) : Prop :=
  if Processed (state b) then in_order (outputValues (state b)) log
  else sends log = [].


(** The block [b] with another kernel. *)
Definition with_kernel (b : Block) (k : BlockKernel) : Block :=
  {| state := state b; routing := routing b; kernel := k |}.

(** A pass, and a run, with the kernel of the block they leave replaced. *)
Definition pass_with_kernel (k : BlockKernel) (x : Pass) : Pass :=
  match x with
  | Next b log rest => Next (with_kernel b k) log rest
  | Break b log f rest => Break (with_kernel b k) log f rest
  | Halt b log e => Halt (with_kernel b k) log e
  end.

Definition run_with_kernel (k : BlockKernel) (r : Run) : Run :=
  {| final := with_kernel (final r) k; trace := trace r; exit := exit r |}.

(** The ports of a block: the name and the channel of every input, the
    name of every output, and the interrupt channel. *)
Definition ports (r : BlockRouting)
    : list (string * Connection) * list string * Connection :=
  ((λ input, (route_Name input, C input)) <$> routing_Inputs r,
   out_Name <$> routing_Outputs r,
   InterruptChan r).

End Core.

Arguments Returned {F A} a interrupt rest.
Arguments Panicked {F A} why.
Arguments Exited {F A} a err.
Arguments Parked {F A} a.

(** ** Paths *)

(** Modelled from the spec: go-fetch ([fetch.Parse], [fetch.Run]), the path
    library that [block.go] imports and the sources do not hold. The spec:
    a path is a read-only selector; [.] denotes identity; [.key] selects an
    object field; [.key.sub] chains; [[n]] indexes an array (0-based);
    failure to resolve a path yields null, returned to downstream as null,
    not as an error. A path is the list of its selectors; [resolve] is
    [None] when the path fails to resolve. *)
Inductive Selector :=
| Field (key : string)
| Index (n : nat).

Fixpoint resolve (q : list Selector) (m : Message) : option Message :=
  match q with
  | [] => Some m
  | Field key :: q' =>
      match m with
      | MObject o => o !! key ≫= resolve q'
      | _ => None
      end
  | Index n :: q' =>
      match m with
      | MArray arr => arr !! n ≫= resolve q'
      | _ => None
      end
  end.

Definition selectors : Fetch :=
  {| Query := list Selector; fetch_dot := [];
     fetch_Run := λ q m, (default MNil (resolve q m), None) |}.

(** ** Instances used in the examples *)

(** A stricter evaluator: [q] is the list of keys to descend through, and
    a step that cannot be taken is reported as an error. It is not a model
    of go-fetch (that is [selectors]): it stands for a [fetch.Run] that
    returns an error, the case [receive] guards with [log.Fatal], and on
    the identity path it returns the message. *)
Fixpoint descend (q : list string) (m : Message) : Message * option string :=
  match q with
  | [] => (m, None)
  | k :: q' =>
      match m with
      | MObject o =>
          match o !! k with
          | Some v => descend q' v
          | None => (MNil, Some ("no key " ++ k)%string)
          end
      | _ => (MNil, Some ("no object at " ++ k)%string)
      end
  end.

Definition keys : Fetch :=
  {| Query := list string; fetch_dot := []; fetch_Run := descend |}.

(** [range] in the order in which [elements] lists the channels. *)
Definition ascending : Order := {| range := elements |}.

(** A block that copies its input, over the paths of [selectors]. *)
Definition forwarding : Spec (@BlockKernel selectors) := {|
  Inputs := [ {| pin_Name := "in" |} ];
  Outputs := [ {| pin_Name := "out" |} ];
  Kernel := λ inp out i, Returned (<[0 := index inp 0]> out) None i
|}.

(** A block that copies its input, as [Identity] does, with the three
    parameters [Serve] passes. *)
Definition copying : Spec (@BlockKernel keys) := {|
  Inputs := [ {| pin_Name := "in" |} ];
  Outputs := [ {| pin_Name := "out" |} ];
  Kernel := λ inp out i, Returned (<[0 := index inp 0]> out) None i
|}.

(** A block with the pins of [Latch] (both outputs are named "out") whose
    kernel writes both outputs. *)
Definition latching : Spec (@BlockKernel keys) := {|
  Inputs := [ {| pin_Name := "in" |} ];
  Outputs := [ {| pin_Name := "out" |}; {| pin_Name := "out" |} ];
  Kernel := λ inp out i,
    Returned (<[1 := MNil]> (<[0 := index inp 0]> out)) None i
|}.


(** A block whose kernel waits as [Delay] does: it forwards its input when
    the timer fires and returns the interrupt when one arrives first. *)
Definition waiting : Spec (@BlockKernel keys) := {|
  Inputs := [ {| pin_Name := "passthrough" |} ];
  Outputs := [ {| pin_Name := "passthrough" |} ];
  Kernel := λ inp out i,
    match i with
    | TimerFired :: i' => Returned (<[0 := index inp 0]> out) None i'
    | Interrupted f :: i' => Returned out (Some f) i'
    | _ => Parked out
    end
|}.

(** * Properties *)

Section Proofs.
Context `{F : Fetch} `{L : Std} `{O : Order}.

(** ** The library *)

Lemma index_insert_eq (m : MessageMap) (k : RouteID) (v : Message) :
  index (<[k := v]> m) k = v.
Proof. unfold index. by rewrite lookup_insert_eq. Qed.

Lemma index_singleton (k : RouteID) (v : Message) :
  index {[ k := v ]} k = v.
Proof. unfold index. by rewrite lookup_singleton_eq. Qed.

Lemma slice_from_1 (x : Message) (rest : list Message) :
  slice (x :: rest) 1 (Z.of_nat (length (x :: rest))) = Some rest.
Proof.
  unfold slice. rewrite bool_decide_eq_true_2 by (simpl; lia).
  f_equal. rewrite Nat2Z.id. simpl.
  rewrite Nat.sub_0_r. apply firstn_all.
Qed.

(** C2. [Set] asserts [in[0].(string)] and [Delay] asserts [in[1].(string)]
    without the comma-ok form: on any input map whose message there is not a
    string the kernel panics instead of writing an error on output 0. *)
Theorem Set_and_Delay_panic_on_mismatch
    (p : Addr) (inp out internal : MessageMap) (s : Store) (i : list Event) :
  match index inp 0 with
  | MString _ => True
  | _ => Kernel Set_ p inp out internal s i = Panicked TypeAssertion
  end
  ∧ match index inp 1 with
    | MString _ => True
    | _ => Kernel Delay p inp out internal s i = Panicked TypeAssertion
    end.
Proof.
  split; simpl.
  - by destruct (index inp 0).
  - by destruct (index inp 1).
Qed.

(** The kernels that use the comma-ok form do follow the policy of C2. The
    eight dyads: the operation on two numbers, otherwise an error on
    output 0 and [nil] returned. *)
Lemma dyad_checks_both_inputs
    (in0 in1 result msg0 msg1 : string) (op : float → float → Message)
    (p : Addr) (inp out internal : MessageMap) (s : Store) (i : list Event) :
  Kernel (dyad in0 in1 result msg0 msg1 op) p inp out internal s i =
    Returned (<[0 := match index inp 0, index inp 1 with
                     | MFloat a, MFloat b => op a b
                     | MFloat _, _ => NewError p msg1
                     | _, _ => NewError p msg0
                     end]> out, internal) None i.
Proof. simpl. destruct (index inp 0); try done. by destruct (index inp 1). Qed.

(** [Addition] fed a string writes an error on output 0 and returns [nil]. *)
Lemma Addition_rejects_string
    (p : Addr) (x : float) (t : string) (out internal : MessageMap)
    (s : Store) (i : list Event) :
  Kernel Addition p {[ 0 := MFloat x; 1 := MString t ]} out internal s i =
    Returned (<[0 := NewError p "Addition requires floats"]> out, internal) None i.
Proof. reflexivity. Qed.

(** C5. [Tail] reads [arr[len(arr)]], one past the last element: whatever
    the array, the kernel panics and emits nothing. *)
Theorem Tail_reads_past_the_end
    (p : Addr) (arr : list Message) (inp out internal : MessageMap)
    (s : Store) (i : list Event) :
  Kernel Tail p (<[0 := MArray arr]> inp) out internal s i =
    Panicked IndexOutOfRange.
Proof.
  simpl. rewrite index_insert_eq.
  by rewrite (lookup_ge_None_2 arr (length arr)).
Qed.

(** [Head] on a non-empty array: both reads are in bounds. *)
Lemma Head_on_cons
    (p : Addr) (x : Message) (rest : list Message)
    (inp out internal : MessageMap) (s : Store) (i : list Event) :
  index inp 0 = MArray (x :: rest) →
  Kernel Head p inp out internal s i =
    Returned (<[1 := MArray rest]> (<[0 := x]> out), internal) None i.
Proof.
  intros Hinp. simpl. rewrite Hinp.
  change ((x :: rest) !! 0) with (Some x).
  by rewrite slice_from_1.
Qed.

(** C10. [Head] rejects a message that is not an array with an error on
    output 0, accepts every array, and reads [arr[0]]: in bounds on a
    non-empty array, a panic on the empty one. *)
Theorem Head_bounds
    (p : Addr) (inp out internal : MessageMap) (s : Store) (i : list Event) :
  match index inp 0 with
  | MArray [] => Kernel Head p inp out internal s i = Panicked IndexOutOfRange
  | MArray (x :: rest) =>
      Kernel Head p inp out internal s i =
        Returned (<[1 := MArray rest]> (<[0 := x]> out), internal) None i
  | _ =>
      Kernel Head p inp out internal s i =
        Returned (<[0 := NewError p "head requires an array"]> out, internal) None i
  end.
Proof.
  destruct (index inp 0) as [| | | |arr| | |] eqn:Hinp;
    try (simpl; by rewrite Hinp).
  destruct arr as [|x rest]; [simpl; by rewrite Hinp|].
  by apply Head_on_cons.
Qed.

(** C8. For a non-empty array [A] and an element [e], the output of
    [Append] on [(e, A)] fed to [Head] gives [A[0]] on output 0 and
    [A[1:]] followed by [e] on output 1. *)
Theorem Append_then_Head
    (p q : Addr) (e : Message) (A : list Message)
    (out out' internal internal' : MessageMap) (s s' : Store) (i i' : list Event) :
  1 ≤ length A →
  ∃ appended heads,
    Kernel Append p {[ 0 := e; 1 := MArray A ]} out internal s i =
      Returned (appended, internal) None i
    ∧ Kernel Head q {[ 0 := index appended 0 ]} out' internal' s' i' =
        Returned (heads, internal') None i'
    ∧ heads !! 0 = A !! 0
    ∧ heads !! 1 = Some (MArray (drop 1 A ++ [e])).
Proof.
  intros HA. destruct A as [|a A']; [simpl in HA; lia|].
  eexists _, _. split; [reflexivity|].
  rewrite index_insert_eq. split; [|split].
  - apply Head_on_cons. by rewrite index_singleton.
  - rewrite lookup_insert_ne by done. by rewrite lookup_insert_eq.
  - by rewrite lookup_insert_eq.
Qed.

(** C9. [EqualTo] and [NotEqualTo] compare the two interface values with
    Go's [==] and [!=]: on two sequences, and on two mappings, the
    comparison panics. *)
Theorem EqualTo_panics_on_aggregates
    (p : Addr) (a b : list Message) (m n : gmap string Message)
    (out internal : MessageMap) (s : Store) (i : list Event) :
  Kernel EqualTo p {[ 0 := MArray a; 1 := MArray b ]} out internal s i =
    Panicked Uncomparable
  ∧ Kernel NotEqualTo p {[ 0 := MArray a; 1 := MArray b ]} out internal s i =
      Panicked Uncomparable
  ∧ Kernel EqualTo p {[ 0 := MObject m; 1 := MObject n ]} out internal s i =
      Panicked Uncomparable
  ∧ Kernel NotEqualTo p {[ 0 := MObject m; 1 := MObject n ]} out internal s i =
      Panicked Uncomparable.
Proof. repeat split. Qed.

(** On messages of the scalar variants the two kernels do what C9 says. *)
Lemma EqualTo_on_strings
    (p : Addr) (a b : string) (out internal : MessageMap) (s : Store) (i : list Event) :
  Kernel EqualTo p {[ 0 := MString a; 1 := MString b ]} out internal s i =
    Returned (<[0 := MBool (bool_decide (a = b))]> out, internal) None i
  ∧ Kernel NotEqualTo p {[ 0 := MString a; 1 := MString b ]} out internal s i =
      Returned (<[0 := MBool (negb (bool_decide (a = b)))]> out, internal) None i.
Proof.
  assert (String.eqb a b = bool_decide (a = b)) as Heq.
  { destruct (String.eqb_spec a b);
      [by rewrite bool_decide_eq_true_2 | by rewrite bool_decide_eq_false_2]. }
  split; simpl; change (index _ 0) with (MString a);
    change (index _ 1) with (MString b); simpl; by rewrite Heq.
Qed.

(** ** [First] *)

(** [First] decides on [internal[0]] alone: handed a map without that
    entry it writes [true] and records the entry; handed a map that has the
    entry, it writes [false] and leaves the map as it is. *)
Lemma First_reads_internal
    (p p' : Addr) (inp inp' out out' internal : MessageMap) (x : Message)
    (s s' : Store) (i i' : list Event) :
  Kernel First p inp out ∅ s i =
    Returned (<[0 := MBool true]> out, {[ 0 := MStruct ]}) None i
  ∧ Kernel First p' inp' out' (<[0 := x]> internal) s' i' =
      Returned (<[0 := MBool false]> out', <[0 := x]> internal) None i'.
Proof.
  split; simpl.
  - by rewrite lookup_empty.
  - by rewrite lookup_insert_eq.
Qed.

(** ** The engine *)

Lemma delete_all_empty (m : MessageMap) : delete_all m = ∅.
Proof.
  apply map_eq. intros k. unfold delete_all. rewrite lookup_empty.
  destruct (m !! k) as [v|] eqn:Hv.
  - apply lookup_foldr_delete. apply list_elem_of_fmap.
    exists (k, v). split; [done|]. by apply elem_of_map_to_list.
  - destruct (foldr delete m (map_to_list m).*1 !! k) as [w|] eqn:Hw; [|done].
    apply lookup_foldr_delete_Some in Hw as [_ Hw]. congruence.
Qed.

Lemma elem_of_foldr_difference (l : list (string * Connection)) (mf : Manifest)
    (x : string * Connection) :
  x ∈ foldr (λ k acc, acc ∖ {[ k ]}) mf l ↔ x ∈ mf ∧ x ∉ l.
Proof.
  induction l as [|k l IH]; simpl.
  - split; [intros Hx; split; [done|apply not_elem_of_nil]|by intros [Hx _]].
  - rewrite elem_of_difference, IH, not_elem_of_cons, elem_of_singleton. tauto.
Qed.

Lemma delete_pairs_empty (mf : Manifest) : delete_pairs mf = ∅.
Proof.
  apply set_eq. intros x. unfold delete_pairs.
  rewrite elem_of_foldr_difference, elem_of_elements, elem_of_empty. tauto.
Qed.

Lemma cycle_clean (b : Block) :
  state (crank b) =
    {| inputValues := ∅; outputValues := ∅; manifest := ∅; Processed := false |}.
Proof.
  unfold crank. simpl. by rewrite !delete_all_empty, delete_pairs_empty.
Qed.

(** Every pass that ends a cycle leaves the block as [crank] leaves it. *)
Lemma Next_starts_clean (b b' : Block) (evs evs' : list Event) (log : list Obs) :
  pass b evs = Next b' log evs' →
  state b' =
    {| inputValues := ∅; outputValues := ∅; manifest := ∅; Processed := false |}.
Proof.
  assert (∀ b0 log0 evs0, finish b0 log0 evs0 = Next b' log evs' →
            ∃ b1, b' = crank b1) as Hfinish.
  { intros b0 log0 evs0. unfold finish.
    destruct (broadcast _ evs0) as [[mf sent] [f|] evs1|why|[mf sent] err|[mf sent]];
      try done. intros [= <- _ _]. by eexists. }
  unfold pass. intros Hpass.
  assert (∃ b1, b' = crank b1) as [b1 ->]; [|apply (cycle_clean b1)].
  destruct (receive b evs) as [iv [f|] evs1|why|iv err|iv]; try done.
  simpl in Hpass. destruct (Processed (state b)); [by eapply Hfinish|].
  destruct (kernel b iv (outputValues (state b)) evs1)
    as [ov [f|] evs2|why|ov err|ov]; try done. by eapply Hfinish.
Qed.

Lemma pass_ends_with_crank (b : Block) (evs : list Event) :
  match pass b evs with
  | Next _ log _ => ∃ l outs, log = l ++ [Cranked outs]
  | Break _ _ _ _ => True
  | Halt _ _ e => e ≠ Running
  end.
Proof.
  assert (∀ b0 log0 evs0,
            match finish b0 log0 evs0 with
            | Next _ log _ => ∃ l outs, log = l ++ [Cranked outs]
            | Break _ _ _ _ => True
            | Halt _ _ e => e ≠ Running
            end) as Hfinish.
  { intros b0 log0 evs0. unfold finish.
    destruct (broadcast _ evs0)
      as [[mf sent] [f|] evs1|why|[mf sent] err|[mf sent]]; try done.
    eexists (log0 ++ sent), _. by rewrite <- List.app_assoc. }
  unfold pass.
  destruct (receive b evs) as [iv [f|] evs1|why|iv err|iv]; try done.
  simpl. destruct (Processed (state b)); [apply Hfinish|].
  destruct (kernel b iv (outputValues (state b)) evs1)
    as [ov [f|] evs2|why|ov err|ov]; try done. apply Hfinish.
Qed.

Lemma app_ends_with {A : Type} (l t log : list A) (x : A) :
  l ++ t = log ++ [x] → t = [] ∨ ∃ log', t = log' ++ [x].
Proof.
  destruct t as [|y t' _] using rev_ind; [by left|].
  rewrite List.app_assoc. intros [_ ->]%app_inj_tail. right. by exists t'.
Qed.

(** A run that is still in the loop and has left no trace has made no
    pass. *)
Lemma Serve_idle (fuel : nat) (b : Block) (evs : list Event) :
  exit (Serve fuel b evs) = Running →
  trace (Serve fuel b evs) = [] →
  final (Serve fuel b evs) = b.
Proof.
  destruct fuel as [|fuel]; [done|]. simpl.
  pose proof (pass_ends_with_crank b evs) as Hpass.
  destruct (pass b evs) as [b' log evs'|b' log f evs'|b' log e]; simpl.
  - destruct Hpass as (l & outs & ->). intros _ Htr. by destruct l.
  - destruct (call f (routing b')) as [[r [|]]|]; simpl; try done.
    intros _ Htr. by destruct log.
  - done.
Qed.

(** A run that is still in the loop and whose last step was a [crank]
    holds a block as [crank] leaves it, whatever block it started from. *)
Lemma Serve_after_crank
    (fuel : nat) (b : Block) (evs : list Event) (log : list Obs)
    (outs : list Output) :
  exit (Serve fuel b evs) = Running →
  trace (Serve fuel b evs) = log ++ [Cranked outs] →
  state (final (Serve fuel b evs)) =
    {| inputValues := ∅; outputValues := ∅; manifest := ∅; Processed := false |}.
Proof.
  revert b evs log. induction fuel as [|fuel IH]; intros b evs log; simpl.
  { intros _ Htr. by destruct log. }
  pose proof (pass_ends_with_crank b evs) as Hpass.
  destruct (pass b evs) as [b' l evs'|b' l f evs'|b' l e] eqn:Hp; simpl.
  - intros Hexit Htr. apply app_ends_with in Htr as [Hnil|[log' Htr]].
    + rewrite (Serve_idle _ _ _ Hexit Hnil). by eapply Next_starts_clean.
    + by eapply IH.
  - destruct (call f (routing b')) as [[r [|]]|]; simpl; try done.
    intros Hexit Htr. pose proof Htr as Hlast.
    apply app_ends_with in Htr as [Hnil|[log' Htr]].
    + rewrite Hnil, app_nil_r in Hlast.
      by apply app_inj_tail in Hlast as [_ ?].
    + by eapply IH.
  - by intros ->.
Qed.

(** C7. Whenever a run of a new block stands at the start of a cycle (the
    first one, right after [NewBlock], or any later one, right after a
    [crank]), the input map, the output map and the manifest of the block
    are empty and its [Processed] flag is false. *)
Theorem cycle_starts_clean
    (s : Spec BlockKernel) (ch : Connection) (fuel : nat) (evs : list Event) :
  at_cycle_start (Serve fuel (NewBlock s ch) evs) →
  state (final (Serve fuel (NewBlock s ch) evs)) =
    {| inputValues := ∅; outputValues := ∅; manifest := ∅; Processed := false |}.
Proof.
  intros [Hexit [Hnil|(log & outs & Htr)]].
  - by rewrite (Serve_idle _ _ _ Hexit Hnil).
  - by eapply Serve_after_crank.
Qed.

(** When a message arrives for the input [receive] waits on, the value
    [fetch.Run] returns is stored in the input map; [receive] then goes on
    to the next input if [fetch.Run] returned no error, and calls
    [log.Fatal] if it returned one. *)
Lemma receive_applies_Path
    (id : RouteID) (input : Route) (inputs : list Route) (iv : MessageMap)
    (m v : Message) (err : option string) (evs : list Event) :
  iv !! id = None →
  Value input = None →
  fetch_Run (Path input) m = (v, err) →
  receive_from id (input :: inputs) iv (Arrive m :: evs) =
    match err with
    | None => receive_from (S id) inputs (<[id := v]> iv) evs
    | Some e => Exited (<[id := v]> iv) e
    end.
Proof.
  intros Hid Hpin Hrun. simpl. rewrite Hid, Hpin, Hrun. by destruct err.
Qed.

(** X3. [receive] calls [log.Fatal] only with an error that applying the path
    of one of the inputs returned. *)
Lemma receive_exits_on_path_error_only
    (inputs : list Route) (id : RouteID) (iv iv' : MessageMap)
    (evs : list Event) (e : string) :
  receive_from id inputs iv evs = Exited iv' e →
  ∃ input m v, input ∈ inputs ∧ fetch_Run (Path input) m = (v, Some e).
Proof.
  revert id iv evs.
  induction inputs as [|input inputs IH]; intros id iv evs; simpl; [done|].
  assert (∀ id iv evs, receive_from id inputs iv evs = Exited iv' e →
            ∃ input' m v, input' ∈ input :: inputs
                          ∧ fetch_Run (Path input') m = (v, Some e)) as IH'.
  { intros id0 iv0 evs0 H. destruct (IH _ _ _ H) as (i' & m & v & Hin & Hrun).
    exists i', m, v. split; [by right|done]. }
  destruct (iv !! id); [by apply IH'|].
  destruct (Value input); [by apply IH'|].
  destruct evs as [|[m| | |f] evs]; try done.
  destruct (fetch_Run (Path input) m) as [v [err|]] eqn:Hrun; [|by apply IH'].
  intros [= <- <-]. exists input, m, v. split; [by left|done].
Qed.

(** [log.Fatal] in [receive] ends the run. *)
Lemma Serve_exits_with_receive
    (fuel : nat) (b : Block) (evs : list Event) (iv : MessageMap) (e : string) :
  receive b evs = Exited iv e →
  exit (Serve (S fuel) b evs) = Fatal e.
Proof. intros Hrec. simpl. unfold pass. by rewrite Hrec. Qed.

(** *** Logs *)

Lemma sends_app (l k : list Obs) : sends (l ++ k) = sends l ++ sends k.
Proof. apply omap_app. Qed.

Lemma sends_only_sends_quiet (l : list Obs) : only_sends l → quiet l.
Proof. intros H. eapply Forall_impl; [exact H|]. by intros []. Qed.

Lemma completions_app (l k : list Obs) :
  completions (l ++ k) = completions l + completions k.
Proof. unfold completions. by rewrite filter_app, length_app. Qed.

Lemma completions_only_sends (l : list Obs) : only_sends l → completions l = 0.
Proof.
  induction 1 as [|o l Ho _ IH]; [done|].
  unfold completions in *. rewrite filter_cons_False; [exact IH|].
  destruct o; simpl; tauto.
Qed.

Lemma sent_to_absent (id : RouteID) (c : Connection) (l : list Obs) :
  (id, c) ∉ sends l → sent_to id c l = 0.
Proof.
  unfold sent_to. induction l as [|o l IH]; [done|]. intros Hnot.
  destruct o as [ret|id' c' m|f ok|outs]; simpl in Hnot;
    try (rewrite filter_cons_False by (simpl; tauto); by apply IH).
  apply not_elem_of_cons in Hnot as [Hne Hnot].
  rewrite filter_cons_False; [by apply IH|].
  simpl. rewrite bool_decide_eq_false_2; [tauto|]. intros [-> ->]. done.
Qed.

Lemma sent_to_once (id : RouteID) (c : Connection) (l : list Obs) :
  NoDup (sends l) → (id, c) ∈ sends l → sent_to id c l = 1.
Proof.
  induction l as [|o l IH]; simpl; [by intros _ ?%elem_of_nil|].
  destruct o as [ret|id' c' m|f ok|outs]; simpl; intros Hnd Hin;
    try (unfold sent_to in *; rewrite filter_cons_False by (simpl; tauto);
         by apply IH).
  apply NoDup_cons in Hnd as [Hnew Hnd].
  unfold sent_to. destruct (decide ((id', c') = (id, c))) as [Heq|Hne].
  - injection Heq as -> ->. rewrite filter_cons_True.
    + simpl. f_equal. by apply sent_to_absent.
    + simpl. by rewrite bool_decide_eq_true_2.
  - rewrite filter_cons_False.
    + apply IH; [done|]. apply elem_of_cons in Hin as [Hin|Hin]; [congruence|done].
    + simpl. rewrite bool_decide_eq_false_2; [tauto|]. intros [-> ->]. done.
Qed.

Lemma cycles_from_quiet (cur l tr : list Obs) :
  quiet l → cycles_from cur (l ++ tr) = cycles_from (cur ++ l) tr.
Proof.
  intros Hq. revert cur. induction Hq as [|o l Ho _ IH]; intros cur; simpl.
  - by rewrite app_nil_r.
  - destruct o; try done; rewrite IH; by rewrite <- app_assoc.
Qed.

Lemma cycles_from_quiet_nil (cur l : list Obs) :
  quiet l → cycles_from cur l = [].
Proof.
  intros Hq. rewrite <- (app_nil_r l). by rewrite cycles_from_quiet.
Qed.

(** *** [broadcast] and the manifest *)

Lemma checkpoint_send
    (ns : list string) (mf : Manifest) (log : list Obs)
    (id : RouteID) (name : string) (c : Connection) (v : Message) :
  ns !! id = Some name →
  (name, c) ∉ mf →
  checkpoint ns mf log →
  checkpoint ns ({[ (name, c) ]} ∪ mf) (log ++ [Sent id c v]).
Proof.
  intros Hname Hnew [Hsr Hrs Hnd].
  split; rewrite sends_app; simpl.
  - intros id' c' [Hin|Hin%list_elem_of_singleton]%elem_of_app.
    + destruct (Hsr _ _ Hin) as (n & Hn & Hmf). exists n. set_solver.
    + injection Hin as -> ->. exists name. set_solver.
  - intros n c' [Hin%elem_of_singleton|Hin]%elem_of_union.
    + injection Hin as -> ->. exists id. split; [done|]. set_solver.
    + destruct (Hrs _ _ Hin) as (id' & Hn & Hs). exists id'. set_solver.
  - apply NoDup_app. split; [done|]. split; [|apply NoDup_singleton].
    intros [id' c'] Hin Heq%list_elem_of_singleton. injection Heq as -> ->.
    destruct (Hsr _ _ Hin) as (n & Hn & Hmf). congruence.
Qed.

Lemma checkpoint_other (ns : list string) (mf : Manifest) (log : list Obs) (o : Obs) :
  match o with Sent _ _ _ => False | _ => True end →
  checkpoint ns mf log → checkpoint ns mf (log ++ [o]).
Proof.
  intros Ho [Hsr Hrs Hnd].
  assert (sends (log ++ [o]) = sends log) as Heq.
  { rewrite sends_app. destruct o; simpl; try done; by rewrite app_nil_r. }
  split; by rewrite Heq.
Qed.

Lemma grows_refl (ns : list string) (cur : list Obs) (x : Manifest * list Obs) :
  grows ns cur x x.
Proof.
  split; [done|done|]. exists []. split; [by rewrite app_nil_r|constructor].
Qed.

Lemma grows_trans (ns : list string) (cur : list Obs) (x y z : Manifest * list Obs) :
  grows ns cur x y → grows ns cur y z → grows ns cur x z.
Proof.
  intros [Hc1 Hm1 (s1 & Hl1 & Hs1)] [Hc2 Hm2 (s2 & Hl2 & Hs2)].
  split; [auto|set_solver|].
  exists (s1 ++ s2). split.
  - by rewrite Hl2, Hl1, <- app_assoc.
  - by apply Forall_app.
Qed.

Lemma grows_send
    (ns : list string) (cur : list Obs) (mf : Manifest) (log : list Obs)
    (id : RouteID) (name : string) (c : Connection) (v : Message) :
  ns !! id = Some name →
  (name, c) ∉ mf →
  grows ns cur (mf, log) ({[ (name, c) ]} ∪ mf, log ++ [Sent id c v]).
Proof.
  intros Hname Hnew. split; simpl.
  - rewrite app_assoc. by apply checkpoint_send.
  - set_solver.
  - exists [Sent id c v]. split; [done|]. by repeat constructor.
Qed.

Lemma deliver_grows
    (ns : list string) (cur : list Obs) (id : RouteID) (name : string)
    (v : Message) (cs : list Connection) (mf : Manifest) (log : list Obs)
    (evs : list Event) (x : Manifest * list Obs) :
  ns !! id = Some name →
  payload (deliver id name v cs mf log evs) = Some x →
  grows ns cur (mf, log) x.
Proof.
  intros Hname. revert mf log evs.
  induction cs as [|c cs IH]; intros mf log evs; simpl.
  - intros [= <-]. apply grows_refl.
  - case_decide as Hin; [apply IH|].
    destruct evs as [|[m| | |f] evs]; simpl; try (intros [= <-]; apply grows_refl).
    intros Hx. eapply grows_trans; [|by eapply IH].
    by apply grows_send.
Qed.

Lemma deliver_complete
    (ns : list string) (id : RouteID) (name : string)
    (v : Message) (cs : list Connection) (mf : Manifest) (log : list Obs)
    (evs evs' : list Event) (x : Manifest * list Obs) (c : Connection) :
  ns !! id = Some name →
  deliver id name v cs mf log evs = Returned x None evs' →
  c ∈ cs → (name, c) ∈ x.1.
Proof.
  intros Hname. revert mf log evs.
  induction cs as [|c' cs IH]; intros mf log evs; simpl.
  - by intros _ ?%elem_of_nil.
  - intros Hd [<-|Hin]%elem_of_cons.
    + case_decide as Hmf.
      * assert (grows ns [] (mf, log) x) as Hg
          by (eapply deliver_grows; [done|by rewrite Hd]).
        apply (grows_manifest _ _ _ _ Hg). done.
      * destruct evs as [|[m| | |f] evs]; try done.
        assert (grows ns [] ({[ (name, c) ]} ∪ mf, log ++ [Sent id c v]) x) as Hg
          by (eapply deliver_grows; [done|by rewrite Hd]).
        apply (grows_manifest _ _ _ _ Hg). set_solver.
    + case_decide as Hmf; [by eapply IH|].
      destruct evs as [|[m| | |f] evs]; try done. by eapply IH.
Qed.

Lemma broadcast_from_grows
    (ns : list string) (cur : list Obs) (outs : list Output) (id : RouteID)
    (ov : MessageMap) (mf : Manifest) (log : list Obs) (evs : list Event)
    (x : Manifest * list Obs) :
  (∀ k out, outs !! k = Some out → ns !! (id + k) = Some (out_Name out)) →
  payload (broadcast_from id outs ov mf log evs) = Some x →
  grows ns cur (mf, log) x.
Proof.
  revert id mf log evs.
  induction outs as [|out outs IH]; intros id mf log evs Hns; simpl.
  - intros [= <-]. apply grows_refl.
  - case_decide as Hsize.
    { destruct evs as [|[m| | |f] evs]; simpl; intros [= <-]; apply grows_refl. }
    assert (ns !! id = Some (out_Name out)) as Hname.
    { specialize (Hns 0 out eq_refl). by rewrite Nat.add_0_r in Hns. }
    destruct (deliver id (out_Name out) (index ov id) (range (Connections out))
                mf log evs) as [[mf' log'] [f|] evs'|why|[mf' log'] err|[mf' log']]
      eqn:Hd; simpl; try (intros [= <-]; eapply deliver_grows; [done|by rewrite Hd]);
      try done.
    intros Hx. eapply grows_trans.
    + eapply deliver_grows; [done|by rewrite Hd].
    + eapply IH; [|done]. intros k o Hk.
      specialize (Hns (S k) o Hk). by rewrite Nat.add_succ_r in Hns.
Qed.

Lemma broadcast_grows
    (cur : list Obs) (b : Block) (evs : list Event) (x : Manifest * list Obs) :
  payload (broadcast b evs) = Some x →
  grows (out_Name <$> routing_Outputs (routing b)) cur (manifest (state b), []) x.
Proof.
  apply broadcast_from_grows. intros k out Hk. simpl.
  by rewrite list_lookup_fmap, Hk.
Qed.

Lemma checkpoint_empty (ns : list string) : checkpoint ns ∅ [].
Proof.
  split; simpl.
  - by intros id c ?%elem_of_nil.
  - intros n c. set_solver.
  - constructor.
Qed.

(** *** Interrupts *)

Lemma call_keeps_names (f : InterruptFunc) (r r' : BlockRouting) (ok : bool) :
  call f r = Some (r', ok) →
  out_Name <$> routing_Outputs r' = out_Name <$> routing_Outputs r.
Proof.
  destruct f as [id v|id q|id c|id c|]; unfold call.
  - destruct (routing_Inputs r !! id); simpl; by intros [= <- <-].
  - destruct (routing_Inputs r !! id); simpl; by intros [= <- <-].
  - destruct (routing_Outputs r !! id) as [out|] eqn:Hout; simpl; [|done].
    intros [= <- <-]. simpl. rewrite list_fmap_insert. simpl.
    apply list_insert_id. by rewrite list_lookup_fmap, Hout.
  - destruct (routing_Outputs r !! id) as [out|] eqn:Hout; simpl; [|done].
    intros [= <- <-]. simpl. rewrite list_fmap_insert. simpl.
    apply list_insert_id. by rewrite list_lookup_fmap, Hout.
  - by intros [= <- <-].
Qed.

(** *** Runs and their cycles *)

(** An invariant [I] of the block and the log of its current cycle that
    every pass and every interrupt keep, and that makes [G] true of a cycle
    when it completes, makes [G] true of every completed cycle of a run. *)
Lemma Serve_cycles
    (I : Block → list Obs → Prop) (G : list Obs * list Output → Prop) :
  (∀ b evs cur, I b cur →
     match pass b evs with
     | Next b' log _ =>
         ∃ l outs, log = l ++ [Cranked outs] ∧ quiet l
                   ∧ G (cur ++ l, outs) ∧ I b' []
     | Break b' log f _ =>
         quiet log
         ∧ ∀ r, call f (routing b') = Some (r, true) →
                I (with_routing b' r) (cur ++ log ++ [Called f true])
     | Halt _ log _ => quiet log
     end) →
  ∀ fuel b evs cur,
    I b cur → Forall G (cycles_from cur (trace (Serve fuel b evs))).
Proof.
  intros Hpass fuel. induction fuel as [|fuel IH]; intros b evs cur HI; simpl.
  { constructor. }
  specialize (Hpass b evs cur HI).
  destruct (pass b evs) as [b' log evs'|b' log f evs'|b' log e]; simpl.
  - destruct Hpass as (l & outs & -> & Hq & HG & HI').
    rewrite <- List.app_assoc. rewrite cycles_from_quiet by done. simpl.
    constructor; [done|]. by apply IH.
  - destruct Hpass as [Hq HI'].
    destruct (call f (routing b')) as [[r [|]]|] eqn:Hcall; simpl.
    + rewrite cycles_from_quiet.
      * apply IH. by apply HI'.
      * apply Forall_app. split; [done|]. by repeat constructor.
    + rewrite cycles_from_quiet_nil; [constructor|].
      apply Forall_app. split; [done|]. by repeat constructor.
    + rewrite cycles_from_quiet_nil; [constructor|done].
  - rewrite cycles_from_quiet_nil; [constructor|done].
Qed.

Lemma broadcast_only_sends
    (b : Block) (evs : list Event) (mf : Manifest) (sent : list Obs) :
  payload (broadcast b evs) = Some (mf, sent) → only_sends sent.
Proof.
  intros Hb. apply (broadcast_grows []) in Hb.
  destruct (grows_log _ _ _ _ Hb) as (s & Heq & Hs). simpl in Heq. by subst.
Qed.

Lemma quiet_app (l k : list Obs) : quiet l → quiet k → quiet (l ++ k).
Proof. intros Hl Hk. by apply Forall_app. Qed.

Lemma completions_other (o : Obs) : is_completed o = false → completions [o] = 0.
Proof.
  intros Ho. unfold completions. rewrite filter_cons_False; [done|].
  rewrite Ho. by intros [].
Qed.

Lemma completions_none (l : list Obs) :
  Forall (λ o, is_completed o = false) l → completions l = 0.
Proof.
  induction 1 as [|o l Ho _ IH]; [done|].
  change (o :: l) with ([o] ++ l).
  by rewrite completions_app, completions_other, IH.
Qed.

Lemma completions_Invoked_nil : completions [Invoked None] = 1.
Proof. unfold completions. by rewrite filter_cons_True. Qed.

Lemma last_invoked_app (l k : list Obs) :
  Forall (λ o, is_invoked o = false) k → last_invoked (l ++ k) = last_invoked l.
Proof.
  intros Hk. unfold last_invoked. rewrite omap_app.
  replace (omap _ k) with (@nil (option InterruptFunc));
    [by rewrite app_nil_r|].
  induction Hk as [|o k Ho _ IH]; [done|]. by destruct o.
Qed.

Lemma last_invoked_snoc (l : list Obs) (ret : option InterruptFunc) :
  last_invoked (l ++ [Invoked ret]) = Some ret.
Proof. unfold last_invoked. rewrite omap_app. simpl. apply last_snoc. Qed.

Lemma only_sends_not_invoked (l : list Obs) :
  only_sends l → Forall (λ o, is_invoked o = false) l.
Proof. intros H. eapply Forall_impl; [exact H|]. by intros []. Qed.

Lemma completed_app (l k : list Obs) :
  Forall (λ o, is_invoked o = false) k → completed l → completed (l ++ k).
Proof.
  intros Hk [Hone Hlast]. split.
  - rewrite completions_app, Hone, completions_none; [done|].
    eapply Forall_impl; [exact Hk|]. by intros [].
  - by rewrite last_invoked_app.
Qed.

(** *** The kernel runs to completion once per cycle *)

Lemma finish_completions (cur : list Obs) (b : Block) (log : list Obs) (evs : list Event) :
  quiet log →
  completed (cur ++ log) →
  match finish b log evs with
  | Next b' log' _ =>
      ∃ l outs, log' = l ++ [Cranked outs] ∧ quiet l
                ∧ completed (cur ++ l) ∧ ran_once b' []
  | Break b' log' f _ =>
      quiet log'
      ∧ ∀ r, call f (routing b') = Some (r, true) →
             ran_once (with_routing b' r) (cur ++ log' ++ [Called f true])
  | Halt _ log' _ => quiet log'
  end.
Proof.
  intros Hq Hone. unfold finish.
  destruct (broadcast (with_Processed b true) evs)
    as [[mf sent] [f|] evs'|why|[mf sent] err|[mf sent]] eqn:Hb; try done;
    assert (only_sends sent) as Hs
      by (eapply broadcast_only_sends; by rewrite Hb);
    pose proof (sends_only_sends_quiet _ Hs) as Hqs;
    pose proof (only_sends_not_invoked _ Hs) as Hns.
  - split; [by apply quiet_app|]. intros r _. unfold ran_once. simpl.
    rewrite !List.app_assoc.
    apply completed_app; [repeat constructor|]. by apply completed_app.
  - exists (log ++ sent), (routing_Outputs (routing (with_Processed b true))).
    split; [by rewrite <- List.app_assoc|]. split; [by apply quiet_app|].
    split; [|done]. rewrite List.app_assoc. by apply completed_app.
  - by apply quiet_app.
  - by apply quiet_app.
Qed.

Lemma pass_completions (b : Block) (evs : list Event) (cur : list Obs) :
  ran_once b cur →
  match pass b evs with
  | Next b' log _ =>
      ∃ l outs, log = l ++ [Cranked outs] ∧ quiet l
                ∧ completed (cur ++ l, outs).1 ∧ ran_once b' []
  | Break b' log f _ =>
      quiet log
      ∧ ∀ r, call f (routing b') = Some (r, true) →
             ran_once (with_routing b' r) (cur ++ log ++ [Called f true])
  | Halt _ log _ => quiet log
  end.
Proof.
  unfold ran_once, pass. intros Hran.
  destruct (receive b evs) as [iv [f|] evs'|why|iv err|iv]; try by constructor.
  - split; [constructor|]. intros r _. simpl.
    destruct (Processed (state b)).
    + apply completed_app; [by repeat constructor|done].
    + by rewrite completions_app, completions_other, Nat.add_0_r.
  - simpl. destruct (Processed (state b)) eqn:HP.
    + apply (finish_completions cur); [constructor|by rewrite app_nil_r].
    + destruct (kernel b iv (outputValues (state b)) evs')
        as [ov [f|] evs''|why|ov err|ov]; try by constructor.
      * split; [by repeat constructor|]. intros r _. simpl. rewrite HP.
        rewrite completions_app, Hran, completions_none; [done|].
        by repeat constructor.
      * apply (finish_completions cur); [by repeat constructor|]. split.
        -- by rewrite completions_app, Hran, completions_Invoked_nil.
        -- apply last_invoked_snoc.
Qed.

(** C4 as amended. In every completed cycle of a run that starts with
    [Processed] false, the kernel returns [nil] exactly once, and that is
    its last invocation of the cycle: once it has returned [nil], later
    passes of the same cycle skip it. Invocations that return an interrupt
    come before and are not bounded: the kernel is invoked again after
    each. *)
Theorem kernel_completes_once_per_cycle
    (fuel : nat) (b : Block) (evs : list Event) (cyc : list Obs * list Output) :
  Processed (state b) = false →
  cyc ∈ cycles (trace (Serve fuel b evs)) →
  completions cyc.1 = 1 ∧ last_invoked cyc.1 = Some None.
Proof.
  intros HP. revert cyc. apply Forall_forall.
  apply (Serve_cycles ran_once (λ cyc, completed cyc.1)).
  - intros b' evs' cur. apply pass_completions.
  - unfold ran_once. by rewrite HP.
Qed.

(** *** Every connection is served once per cycle *)

Lemma checkpointed_call
    (ns : list string) (b : Block) (log : list Obs) (f : InterruptFunc)
    (r : BlockRouting) (ok : bool) :
  call f (routing b) = Some (r, ok) →
  checkpointed ns b log →
  checkpointed ns (with_routing b r) (log ++ [Called f ok]).
Proof.
  intros Hcall [Hns Hcp]. split; simpl.
  - by rewrite (call_keeps_names _ _ _ _ Hcall).
  - by apply checkpoint_other.
Qed.

Lemma broadcast_from_complete
    (ns : list string) (outs : list Output) (id : RouteID)
    (ov : MessageMap) (mf : Manifest) (log : list Obs) (evs evs' : list Event)
    (x : Manifest * list Obs) :
  range_visits_all →
  (∀ k out, outs !! k = Some out → ns !! (id + k) = Some (out_Name out)) →
  broadcast_from id outs ov mf log evs = Returned x None evs' →
  ∀ k out c, outs !! k = Some out → c ∈ Connections out →
             (out_Name out, c) ∈ x.1.
Proof.
  intros Hrange. revert id mf log evs.
  induction outs as [|out outs IH]; intros id mf log evs Hns; simpl; [done|].
  case_decide as Hsize.
  { by destruct evs as [|[m| | |f] evs]. }
  assert (ns !! id = Some (out_Name out)) as Hname.
  { specialize (Hns 0 out eq_refl). by rewrite Nat.add_0_r in Hns. }
  assert (∀ k o, outs !! k = Some o → ns !! (S id + k) = Some (out_Name o)) as Hns'.
  { intros k o Hk. specialize (Hns (S k) o Hk). by rewrite Nat.add_succ_r in Hns. }
  destruct (deliver id (out_Name out) (index ov id) (range (Connections out))
              mf log evs) as [[mf' log'] [f|] evs1|why|[mf' log'] err|[mf' log']]
    eqn:Hd; try done.
  intros Hb [|k] o c Hk Hc; simpl in Hk.
  - injection Hk as <-.
    assert (grows ns [] (mf', log') x) as Hg
      by (eapply broadcast_from_grows; [exact Hns'|by rewrite Hb]).
    apply (grows_manifest _ _ _ _ Hg).
    apply (deliver_complete ns _ _ _ _ _ _ _ _ _ c Hname Hd).
    rewrite (Hrange (Connections out)). by apply elem_of_elements.
  - by eapply IH.
Qed.

Lemma broadcast_from_connected
    (outs : list Output) (id : RouteID) (ov : MessageMap) (mf : Manifest)
    (log : list Obs) (evs evs' : list Event) (x : Manifest * list Obs) :
  broadcast_from id outs ov mf log evs = Returned x None evs' →
  Forall (λ out, size (Connections out) ≠ 0) outs.
Proof.
  revert id mf log evs.
  induction outs as [|out outs IH]; intros id mf log evs; simpl; [constructor|].
  case_decide as Hsize.
  { by destruct evs as [|[m| | |f] evs]. }
  destruct (deliver id (out_Name out) (index ov id) (range (Connections out))
              mf log evs) as [[mf' log'] [f|] evs1|why|[mf' log'] err|[mf' log']];
    try done.
  intros Hb. constructor; [done|by eapply IH].
Qed.

Lemma delivered_once_here
    (ns : list string) (outs : list Output) (mf : Manifest) (log : list Obs) :
  out_Name <$> outs = ns →
  checkpoint ns mf log →
  (∀ k out c, outs !! k = Some out → c ∈ Connections out →
              (out_Name out, c) ∈ mf) →
  delivered_once (log, outs).
Proof.
  intros Hns [Hsr Hrs Hdup] Hall id out c Hout Hc Hsake. simpl in *.
  apply sent_to_once; [done|].
  destruct (Hrs _ _ (Hall _ _ _ Hout Hc)) as (id' & Hid' & Hin).
  destruct (decide (id' = id)) as [->|Hne]; [done|].
  rewrite <- Hns, list_lookup_fmap in Hid'.
  destruct (outs !! id') as [out'|] eqn:Hout'; [|done].
  injection Hid' as Hname.
  pose proof (Hsake id' out' Hne Hout' Hname) as Hnone. simpl in Hnone.
  by rewrite (sent_to_once _ _ _ Hdup Hin) in Hnone.
Qed.

Lemma finish_checkpoint
    (ns : list string) (cur : list Obs) (b : Block) (log : list Obs)
    (evs : list Event) :
  quiet log →
  checkpointed ns b (cur ++ log) →
  match finish b log evs with
  | Next b' log' _ =>
      ∃ l outs, log' = l ++ [Cranked outs] ∧ quiet l
                ∧ served ns (cur ++ l, outs) ∧ checkpointed ns b' []
  | Break b' log' f _ =>
      quiet log'
      ∧ ∀ r, call f (routing b') = Some (r, true) →
             checkpointed ns (with_routing b' r) (cur ++ log' ++ [Called f true])
  | Halt _ log' _ => quiet log'
  end.
Proof.
  intros Hq [Hns Hcp]. unfold finish.
  destruct (broadcast (with_Processed b true) evs)
    as [[mf sent] [f|] evs'|why|[mf sent] err|[mf sent]] eqn:Hb; try done;
    assert (only_sends sent) as Hs
      by (eapply broadcast_only_sends; by rewrite Hb);
    pose proof (sends_only_sends_quiet _ Hs) as Hqs;
    assert (grows ns (cur ++ log) (manifest (state b), []) (mf, sent)) as Hg
      by (rewrite <- Hns; apply (broadcast_grows _ (with_Processed b true) evs);
          by rewrite Hb);
    pose proof (grows_checkpoint _ _ _ _ Hg) as Hcp'; simpl in Hcp';
    rewrite app_nil_r, <- List.app_assoc in Hcp'; specialize (Hcp' Hcp).
  - split; [by apply quiet_app|]. intros r Hcall.
    rewrite List.app_assoc.
    apply (checkpointed_call ns (with_manifest (with_Processed b true) mf));
      [done|]. by split.
  - exists (log ++ sent), (routing_Outputs (routing b)).
    split; [by rewrite <- List.app_assoc|]. split; [by apply quiet_app|]. split.
    + split; [apply (sent_once _ _ _ Hcp')|].
      split; [by eapply broadcast_from_connected|]. intros Hrange.
      apply (delivered_once_here ns _ mf); [done..|].
      eapply (broadcast_from_complete ns _ 0 _ _ _ _ _ (mf, sent));
        [done| |exact Hb].
      intros k out Hk. simpl in *. by rewrite <- Hns, list_lookup_fmap, Hk.
    + split; [done|]. simpl. rewrite delete_pairs_empty. apply checkpoint_empty.
  - by apply quiet_app.
  - by apply quiet_app.
Qed.

Lemma pass_checkpoint
    (ns : list string) (b : Block) (evs : list Event) (cur : list Obs) :
  checkpointed ns b cur →
  match pass b evs with
  | Next b' log _ =>
      ∃ l outs, log = l ++ [Cranked outs] ∧ quiet l
                ∧ served ns (cur ++ l, outs) ∧ checkpointed ns b' []
  | Break b' log f _ =>
      quiet log
      ∧ ∀ r, call f (routing b') = Some (r, true) →
             checkpointed ns (with_routing b' r) (cur ++ log ++ [Called f true])
  | Halt _ log _ => quiet log
  end.
Proof.
  intros Hcp. unfold pass.
  destruct (receive b evs) as [iv [f|] evs'|why|iv err|iv]; try by constructor.
  - split; [constructor|]. intros r Hcall. simpl.
    by apply (checkpointed_call ns (with_inputValues b iv)).
  - simpl. destruct (Processed (state b)) eqn:HP.
    + apply (finish_checkpoint ns cur); [constructor|by rewrite app_nil_r].
    + destruct (kernel b iv (outputValues (state b)) evs')
        as [ov [f|] evs''|why|ov err|ov]; try by constructor.
      * split; [by repeat constructor|]. intros r Hcall.
        rewrite List.app_assoc.
        apply (checkpointed_call ns
                 (with_outputValues (with_inputValues b iv) ov)); [done|].
        destruct Hcp as [Hns Hcp]. split; [done|]. by apply checkpoint_other.
      * apply (finish_checkpoint ns cur); [by repeat constructor|].
        destruct Hcp as [Hns Hcp]. split; [done|]. by apply checkpoint_other.
Qed.

Lemma Serve_served (fuel : nat) (b : Block) (evs : list Event) :
  manifest (state b) = ∅ →
  Forall (served (out_Name <$> routing_Outputs (routing b)))
         (cycles (trace (Serve fuel b evs))).
Proof.
  intros Hmf.
  apply (Serve_cycles
           (checkpointed (out_Name <$> routing_Outputs (routing b)))).
  - intros b' evs' cur. apply pass_checkpoint.
  - split; [done|]. rewrite Hmf. apply checkpoint_empty.
Qed.


(** X12. The manifest alone, whatever the names of the outputs: in a completed
    cycle no output sends a second message to a connection, also when the
    broadcast is resumed after interrupts. *)
Lemma no_second_message
    (fuel : nat) (b : Block) (evs : list Event) (cyc : list Obs * list Output)
    (id : RouteID) (c : Connection) :
  manifest (state b) = ∅ →
  cyc ∈ cycles (trace (Serve fuel b evs)) →
  sent_to id c cyc.1 ≤ 1.
Proof.
  intros Hmf Hcyc.
  pose proof (Serve_served fuel b evs Hmf) as Hall.
  rewrite Forall_forall in Hall. destruct (Hall cyc Hcyc) as [Hnd _].
  destruct (decide ((id, c) ∈ sends cyc.1)) as [Hin|Hout].
  - rewrite sent_to_once; [lia|done..].
  - rewrite sent_to_absent; [lia|done].
Qed.

(** X13. A cycle completes only when every output has a connection: on an
    output without one, [broadcast] waits for an interrupt. *)
Lemma completed_cycle_is_connected
    (fuel : nat) (b : Block) (evs : list Event) (cyc : list Obs * list Output)
    (out : Output) :
  manifest (state b) = ∅ →
  cyc ∈ cycles (trace (Serve fuel b evs)) →
  out ∈ cyc.2 →
  size (Connections out) ≠ 0.
Proof.
  intros Hmf Hcyc Hout.
  pose proof (Serve_served fuel b evs Hmf) as Hall.
  rewrite Forall_forall in Hall. destruct (Hall cyc Hcyc) as (_ & Hconn & _).
  rewrite Forall_forall in Hconn. by apply Hconn.
Qed.

End Proofs.

(** * Further properties of the two files *)

Section Further.
Context `{F : Fetch} `{L : Std} `{O : Order} {E : Elsewhere}.

(** ** [receive] *)

Lemma receive_from_keeps
    (inputs : list Route) (id : RouteID) (iv iv' : MessageMap) (evs : list Event) :
  payload (receive_from id inputs iv evs) = Some iv' → iv ⊆ iv'.
Proof.
  revert id iv evs.
  induction inputs as [|input inputs IH]; intros id iv evs; simpl.
  - by intros [= <-].
  - destruct (iv !! id) eqn:Hid; [apply IH|].
    assert (∀ v, iv ⊆ <[id := v]> iv) as Hins
      by (intros v; by apply insert_subseteq).
    destruct (Value input) as [v|].
    { intros H. etrans; [apply (Hins v)|by eapply IH]. }
    destruct evs as [|[m| | |f] evs]; simpl; try by intros [= <-].
    destruct (fetch_Run (Path input) m) as [v [err|]]; simpl.
    + intros [= <-]. apply Hins.
    + intros H. etrans; [apply (Hins v)|by eapply IH].
Qed.

Lemma receive_from_fills
    (inputs : list Route) (id : RouteID) (iv iv' : MessageMap)
    (evs rest : list Event) (k : nat) :
  receive_from id inputs iv evs = Returned iv' None rest →
  k < length inputs → is_Some (iv' !! (id + k)).
Proof.
  revert id iv evs k.
  induction inputs as [|input inputs IH]; intros id iv evs k; simpl; [lia|].
  assert (∀ iv0 evs0,
            is_Some (iv0 !! id) →
            receive_from (S id) inputs iv0 evs0 = Returned iv' None rest →
            k < S (length inputs) → is_Some (iv' !! (id + k))) as Hstep.
  { intros iv0 evs0 Hhas Hrec Hk. destruct k as [|k].
    - rewrite Nat.add_0_r. destruct Hhas as [v Hv]. exists v.
      eapply lookup_weaken; [exact Hv|].
      apply (receive_from_keeps inputs (S id) iv0 iv' evs0). by rewrite Hrec.
    - rewrite Nat.add_succ_r, <- Nat.add_succ_l. eapply IH; [exact Hrec|lia]. }
  destruct (iv !! id) eqn:Hid; [by apply Hstep; rewrite Hid|].
  destruct (Value input) as [v|].
  { apply Hstep. by rewrite lookup_insert_eq. }
  destruct evs as [|[m| | |f] evs]; try done.
  destruct (fetch_Run (Path input) m) as [v [err|]]; [done|].
  apply Hstep. by rewrite lookup_insert_eq.
Qed.

(** X1. [receive] never drops or overwrites a value it already holds, however
    it ends; and when it returns [nil], every input of the block has a
    value. *)
Theorem receive_fills_every_input
    (b : Block) (evs : list Event) (iv' : MessageMap) :
  payload (receive b evs) = Some iv' →
  inputValues (state b) ⊆ iv'
  ∧ ∀ rest id, receive b evs = Returned iv' None rest →
               id < length (routing_Inputs (routing b)) → is_Some (iv' !! id).
Proof.
  intros Hrec. split; [by eapply receive_from_keeps|].
  intros rest id Hnil Hid.
  by apply (receive_from_fills _ 0 _ _ _ _ id Hnil).
Qed.

Lemma receive_from_pinned
    (inputs : list Route) (id : RouteID) (iv : MessageMap) (evs : list Event) :
  Forall (λ input, is_Some (Value input)) inputs →
  ∃ iv', receive_from id inputs iv evs = Returned iv' None evs
         ∧ ∀ k input, inputs !! k = Some input →
             iv' !! (id + k) =
               match iv !! (id + k) with
               | Some m => Some m
               | None => Value input
               end.
Proof.
  intros Hpin. revert id iv.
  induction Hpin as [|input inputs [v Hv] _ IH]; intros id iv; simpl.
  - by exists iv.
  - assert (∀ iv0, iv0 !! id = match iv !! id with
                                | Some m => Some m
                                | None => Value input
                                end →
              (∀ j, j ≠ id → iv0 !! j = iv !! j) →
              ∃ iv', receive_from (S id) inputs iv0 evs = Returned iv' None evs
                     ∧ ∀ k input', (input :: inputs) !! k = Some input' →
                         iv' !! (id + k) =
                           match iv !! (id + k) with
                           | Some m => Some m
                           | None => Value input'
                           end) as Hstep.
    { intros iv0 Hhere Hother. destruct (IH (S id) iv0) as (iv' & Hrec & Hlook).
      exists iv'. split; [done|]. intros [|k] input' Hk; simpl in Hk.
      - injection Hk as <-. rewrite Nat.add_0_r.
        assert (is_Some (iv0 !! id)) as [m Hm].
        { rewrite Hhere. destruct (iv !! id); [done|]. by rewrite Hv. }
        rewrite <- Hhere, Hm. eapply lookup_weaken; [exact Hm|].
        apply (receive_from_keeps inputs (S id) iv0 iv' evs). by rewrite Hrec.
      - rewrite Nat.add_succ_r, <- Nat.add_succ_l, (Hlook k input' Hk).
        by rewrite Hother by lia. }
    destruct (iv !! id) eqn:Hid.
    + apply Hstep; [done|done].
    + rewrite Hv. apply Hstep.
      * by rewrite lookup_insert_eq.
      * intros j Hj. by rewrite lookup_insert_ne.
Qed.

(** X2. A block whose inputs all have a pinned value needs no message:
    [receive] returns [nil] at once, whatever is ready on the channels,
    and each input gets its pinned value unless it already had one. *)
Theorem pinned_inputs_need_no_message
    (b : Block) (evs : list Event) :
  Forall (λ input, is_Some (Value input)) (routing_Inputs (routing b)) →
  ∃ iv', receive b evs = Returned iv' None evs
         ∧ ∀ id input, Input b id = Some input →
             iv' !! id =
               match inputValues (state b) !! id with
               | Some m => Some m
               | None => Value input
               end.
Proof.
  intros Hpin.
  destruct (receive_from_pinned _ 0 (inputValues (state b)) evs Hpin)
    as (iv' & Hrec & Hlook).
  exists iv'. split; [done|]. intros id input Hin. by apply (Hlook id).
Qed.

(** ** The interrupts *)

(** X4. The interrupts of [RouteValue] and [RoutePath] panic exactly when
    the id is negative or not below the number of inputs, those of
    [Connect] and [Disconnect] exactly when it is negative or not below
    the number of outputs; the interrupt of [Stop] never panics. *)
Theorem interrupt_panics_out_of_range
    (id : Z) (v : Message) (p : Query) (c : Connection) (r : BlockRouting) :
  (call_at (λ k, RouteValue k v) id r = None
   ↔ ¬ (0 ≤ id < Z.of_nat (length (routing_Inputs r)))%Z)
  ∧ (call_at (λ k, RoutePath k p) id r = None
     ↔ ¬ (0 ≤ id < Z.of_nat (length (routing_Inputs r)))%Z)
  ∧ (call_at (λ k, Connect k c) id r = None
     ↔ ¬ (0 ≤ id < Z.of_nat (length (routing_Outputs r)))%Z)
  ∧ (call_at (λ k, Disconnect k c) id r = None
     ↔ ¬ (0 ≤ id < Z.of_nat (length (routing_Outputs r)))%Z)
  ∧ call Stop r ≠ None.
Proof.
  unfold call_at.
  repeat split; try done; destruct (decide (0 ≤ id)%Z) as [Hid|Hid];
    try (intros _; lia); try done; simpl;
    try (destruct (routing_Inputs r !! Z.to_nat id) eqn:Hl; simpl;
         [apply lookup_lt_Some in Hl|apply lookup_ge_None in Hl];
         (done || lia));
    try (destruct (routing_Outputs r !! Z.to_nat id) eqn:Hl; simpl;
         [apply lookup_lt_Some in Hl|apply lookup_ge_None in Hl];
         (done || lia)).
Qed.

Lemma call_keeps_ports (f : InterruptFunc) (r r' : BlockRouting) (ok : bool) :
  call f r = Some (r', ok) → ports r' = ports r.
Proof.
  unfold ports. destruct f as [id v|id q|id c|id c|]; unfold call.
  - destruct (routing_Inputs r !! id) as [input|] eqn:Hin; simpl; [|done].
    intros [= <- <-]. simpl. rewrite list_fmap_insert. simpl.
    rewrite list_insert_id; [done|]. by rewrite list_lookup_fmap, Hin.
  - destruct (routing_Inputs r !! id) as [input|] eqn:Hin; simpl; [|done].
    intros [= <- <-]. simpl. rewrite list_fmap_insert. simpl.
    rewrite list_insert_id; [done|]. by rewrite list_lookup_fmap, Hin.
  - destruct (routing_Outputs r !! id) as [out|] eqn:Hout; simpl; [|done].
    intros [= <- <-]. simpl. rewrite list_fmap_insert. simpl.
    rewrite list_insert_id; [done|]. by rewrite list_lookup_fmap, Hout.
  - destruct (routing_Outputs r !! id) as [out|] eqn:Hout; simpl; [|done].
    intros [= <- <-]. simpl. rewrite list_fmap_insert. simpl.
    rewrite list_insert_id; [done|]. by rewrite list_lookup_fmap, Hout.
  - by intros [= <- <-].
Qed.

Lemma finish_keeps_routing (b : Block) (log : list Obs) (evs : list Event) :
  match finish b log evs with
  | Next b' _ _ | Break b' _ _ _ | Halt b' _ _ =>
      routing b' = routing b ∧ kernel b' = kernel b
  end.
Proof.
  unfold finish.
  by destruct (broadcast _ evs) as [[mf sent] [f|] evs'|why|[mf sent] err|[mf sent]].
Qed.

Lemma pass_keeps_routing (b : Block) (evs : list Event) :
  match pass b evs with
  | Next b' _ _ | Break b' _ _ _ | Halt b' _ _ =>
      routing b' = routing b ∧ kernel b' = kernel b
  end.
Proof.
  unfold pass.
  destruct (receive b evs) as [iv [f|] evs'|why|iv err|iv]; try done.
  simpl. destruct (Processed (state b)).
  { apply (finish_keeps_routing (with_inputValues b iv)). }
  destruct (kernel b iv (outputValues (state b)) evs')
    as [ov [f|] evs''|why|ov err|ov]; try done.
  apply (finish_keeps_routing (with_outputValues (with_inputValues b iv) ov)).
Qed.

(** X7. However long a block runs and whatever interrupts it handles, it keeps
    its ports and its kernel: the same inputs under the same names and
    channels, the same outputs under the same names, the same interrupt
    channel. Interrupts change pinned values, paths and connections only. *)
Theorem Serve_keeps_ports (fuel : nat) (b : Block) (evs : list Event) :
  ports (routing (final (Serve fuel b evs))) = ports (routing b)
  ∧ kernel (final (Serve fuel b evs)) = kernel b.
Proof.
  revert b evs. induction fuel as [|fuel IH]; intros b evs; simpl; [done|].
  pose proof (pass_keeps_routing b evs) as Hpass.
  destruct (pass b evs) as [b' log evs'|b' log f evs'|b' log e];
    destruct Hpass as [Hr Hk]; simpl.
  - destruct (IH b' evs') as [IHr IHk]. by rewrite IHr, IHk, Hr, Hk.
  - destruct (call f (routing b')) as [[r [|]]|] eqn:Hcall; simpl.
    + destruct (IH (with_routing b' r) evs') as [IHr IHk].
      rewrite IHr, IHk. simpl.
      by rewrite (call_keeps_ports _ _ _ _ Hcall), Hr, Hk.
    + by rewrite (call_keeps_ports _ _ _ _ Hcall), Hr, Hk.
    + by rewrite Hr, Hk.
  - by rewrite Hr, Hk.
Qed.

Lemma pass_halts_without_returning (b : Block) (evs : list Event) :
  match pass b evs with
  | Halt _ _ e => e ≠ Stopped
  | _ => True
  end.
Proof.
  assert (∀ b0 log0 evs0, match finish b0 log0 evs0 with
                          | Halt _ _ e => e ≠ Stopped
                          | _ => True
                          end) as Hfinish.
  { intros b0 log0 evs0. unfold finish.
    by destruct (broadcast _ evs0)
      as [[mf sent] [f|] evs'|why|[mf sent] err|[mf sent]]. }
  unfold pass.
  destruct (receive b evs) as [iv [f|] evs'|why|iv err|iv]; try done.
  simpl. destruct (Processed (state b)); [apply Hfinish|].
  destruct (kernel b iv (outputValues (state b)) evs')
    as [ov [f|] evs''|why|ov err|ov]; try done. apply Hfinish.
Qed.

(** X8. [Serve] returns only when it has called [Stop]: the trace of a run
    that ends with [Serve] returning ends with the call of [Stop]. *)
Theorem Serve_returns_after_Stop_only
    (fuel : nat) (b : Block) (evs : list Event) :
  exit (Serve fuel b evs) = Stopped →
  ∃ log, trace (Serve fuel b evs) = log ++ [Called Stop false].
Proof.
  revert b evs. induction fuel as [|fuel IH]; intros b evs; simpl; [done|].
  pose proof (pass_halts_without_returning b evs) as Hhalt.
  destruct (pass b evs) as [b' log evs'|b' log f evs'|b' log e]; simpl.
  - intros Hexit. destruct (IH _ _ Hexit) as (log' & ->).
    exists (log ++ log'). by rewrite <- List.app_assoc.
  - destruct (call f (routing b')) as [[r [|]]|] eqn:Hcall; simpl; try done.
    + intros Hexit. destruct (IH _ _ Hexit) as (log' & ->).
      exists ((log ++ [Called f true]) ++ log'). by rewrite <- !List.app_assoc.
    + intros _. exists log. destruct f as [id v|id q|id c|id c|]; [..|done];
        unfold call in Hcall;
        repeat (match type of Hcall with
                | context [?l !! ?i] => destruct (l !! i)
                end; simpl in Hcall); done.
  - by intros ->.
Qed.

(** X5. [Connect] and [Disconnect] treat the connections of an output as a
    set: disconnecting a connection just added to an output that did not
    have it restores the routing, and connecting twice is connecting
    once. *)
Theorem Connect_then_Disconnect
    (r : BlockRouting) (id : RouteID) (out : Output) (c : Connection) :
  routing_Outputs r !! id = Some out →
  c ∉ Connections out →
  (call (Connect id c) r ≫= λ x, call (Disconnect id c) x.1) = Some (r, true)
  ∧ (call (Connect id c) r ≫= λ x, call (Connect id c) x.1) =
      call (Connect id c) r.
Proof.
  intros Hout Hc. pose proof (lookup_lt_Some _ _ _ Hout) as Hlt.
  unfold call. rewrite Hout. simpl.
  rewrite !list_lookup_insert_eq by done. simpl.
  rewrite !list_insert_insert_eq. split.
  - assert (({[c]} ∪ Connections out) ∖ {[c]} = Connections out) as ->.
    { apply set_eq. intros x.
      rewrite elem_of_difference, elem_of_union, elem_of_singleton. split.
      - by intros [[Heq|Hx] Hne].
      - intros Hx. split; [by right|]. by intros ->. }
    assert ({| out_Name := out_Name out; Connections := Connections out |} = out)
      as -> by (by destruct out).
    rewrite list_insert_id by done. by destruct r.
  - by rewrite (assoc_L (∪)), (idemp_L (∪)).
Qed.

(** X6. [RouteValue] pins a value on one input and [RoutePath] unpins it: after
    both, the input has the new path and no pinned value, under the name
    and the channel it had; the other inputs are as they were. *)
Theorem RoutePath_unpins
    (b : Block) (id : RouteID) (input : Route) (v : Message) (p : Query) :
  Input b id = Some input →
  ∃ r1 r2,
    call (RouteValue id v) (routing b) = Some (r1, true)
    ∧ Input (with_routing b r1) id =
        Some {| route_Name := route_Name input; Path := Path input;
                Value := Some v; C := C input |}
    ∧ call (RoutePath id p) r1 = Some (r2, true)
    ∧ Input (with_routing b r2) id =
        Some {| route_Name := route_Name input; Path := p;
                Value := None; C := C input |}
    ∧ ∀ j, j ≠ id → Input (with_routing b r2) j = Input b j.
Proof.
  unfold Input. intros Hin. pose proof (lookup_lt_Some _ _ _ Hin) as Hlt.
  unfold call. rewrite Hin. simpl. eexists _, _. split; [done|]. simpl.
  rewrite !list_lookup_insert_eq by done. simpl.
  split; [done|]. split; [done|]. simpl.
  rewrite list_insert_insert_eq.
  split; [by rewrite list_lookup_insert_eq|].
  intros j Hj. by rewrite list_lookup_insert_ne.
Qed.

(** ** [broadcast] within a cycle *)

Lemma deliver_carries
    (ov : MessageMap) (id : RouteID) (name : string) (cs : list Connection)
    (mf : Manifest) (log : list Obs) (evs : list Event)
    (x : Manifest * list Obs) :
  payload (deliver id name (index ov id) cs mf log evs) = Some x →
  ∃ sent, x.2 = log ++ sent ∧ Forall (carries ov) sent.
Proof.
  revert mf log evs. induction cs as [|c cs IH]; intros mf log evs; simpl.
  - intros [= <-]. exists []. by rewrite app_nil_r.
  - case_decide; [apply IH|].
    destruct evs as [|[m| | |f] evs]; simpl;
      try (intros [= <-]; exists []; by rewrite app_nil_r).
    intros Hx. destruct (IH _ _ _ Hx) as (sent & -> & Hsent).
    exists (Sent id c (index ov id) :: sent). split.
    + by rewrite <- List.app_assoc.
    + by constructor.
Qed.

Lemma broadcast_from_carries
    (ov : MessageMap) (outs : list Output) (id : RouteID)
    (mf : Manifest) (log : list Obs) (evs : list Event)
    (x : Manifest * list Obs) :
  payload (broadcast_from id outs ov mf log evs) = Some x →
  ∃ sent, x.2 = log ++ sent ∧ Forall (carries ov) sent.
Proof.
  revert id mf log evs.
  induction outs as [|out outs IH]; intros id mf log evs; simpl.
  - intros [= <-]. exists []. by rewrite app_nil_r.
  - case_decide.
    { destruct evs as [|[m| | |f] evs]; simpl; intros [= <-];
        exists []; by rewrite app_nil_r. }
    destruct (deliver id (out_Name out) (index ov id) (range (Connections out))
                mf log evs) as [[mf' log'] [f|] evs'|why|[mf' log'] err|[mf' log']]
      eqn:Hd; simpl; try done;
      (assert (∃ sent, log' = log ++ sent ∧ Forall (carries ov) sent) as Hsent
         by (apply (deliver_carries ov id (out_Name out)
                      (range (Connections out)) mf log evs (mf', log'));
             by rewrite Hd));
      try (by intros [= <-]).
    intros Hx. destruct Hsent as (sent & -> & Hsent).
    destruct (IH _ _ _ _ Hx) as (sent' & -> & Hsent').
    exists (sent ++ sent'). split; [by rewrite <- List.app_assoc|].
    by apply Forall_app.
Qed.

Lemma in_order_app (ov : MessageMap) (l k : list Obs) :
  in_order ov l → Forall (carries ov) k → in_order ov (l ++ k).
Proof.
  intros (pre & post & -> & Hpre & Hpost) Hk.
  exists pre, (post ++ k). split; [by rewrite <- List.app_assoc|].
  split; [done|]. by apply Forall_app.
Qed.

Lemma sends_none (l : list Obs) :
  Forall (λ o, match o with Sent _ _ _ => False | _ => True end) l →
  sends l = [].
Proof. induction 1 as [|o l Ho _ IH]; [done|]. by destruct o. Qed.

Lemma finish_in_order
    (cur : list Obs) (b : Block) (log : list Obs) (evs : list Event) :
  quiet log →
  in_order (outputValues (state b)) (cur ++ log) →
  match finish b log evs with
  | Next b' log' _ =>
      ∃ l outs, log' = l ++ [Cranked outs] ∧ quiet l
                ∧ (∃ ov, in_order ov (cur ++ l, outs).1) ∧ broadcasting b' []
  | Break b' log' f _ =>
      quiet log'
      ∧ ∀ r, call f (routing b') = Some (r, true) →
             broadcasting (with_routing b' r) (cur ++ log' ++ [Called f true])
  | Halt _ log' _ => quiet log'
  end.
Proof.
  intros Hq Hord. unfold finish.
  destruct (broadcast (with_Processed b true) evs)
    as [[mf sent] [f|] evs'|why|[mf sent] err|[mf sent]] eqn:Hb; try done;
    assert (only_sends sent) as Hs
      by (eapply broadcast_only_sends; by rewrite Hb);
    pose proof (sends_only_sends_quiet _ Hs) as Hqs;
    (assert (Forall (carries (outputValues (state b))) sent) as Hcar
       by (destruct (broadcast_from_carries (outputValues (state b))
                       (routing_Outputs (routing b)) 0 (manifest (state b)) []
                       evs (mf, sent)) as (sent' & Heq & Hsent');
             [unfold broadcast in Hb; simpl in Hb; by rewrite Hb
             |simpl in Heq; by subst])).
  - split; [by apply quiet_app|]. intros r _. unfold broadcasting. simpl.
    rewrite !List.app_assoc. apply in_order_app; [|by repeat constructor].
    by apply in_order_app.
  - exists (log ++ sent), (routing_Outputs (routing (with_Processed b true))).
    split; [by rewrite <- List.app_assoc|]. split; [by apply quiet_app|].
    split; [|done]. exists (outputValues (state b)). simpl.
    rewrite List.app_assoc. by apply in_order_app.
  - by apply quiet_app.
  - by apply quiet_app.
Qed.

Lemma pass_in_order (b : Block) (evs : list Event) (cur : list Obs) :
  broadcasting b cur →
  match pass b evs with
  | Next b' log _ =>
      ∃ l outs, log = l ++ [Cranked outs] ∧ quiet l
                ∧ (∃ ov, in_order ov (cur ++ l, outs).1) ∧ broadcasting b' []
  | Break b' log f _ =>
      quiet log
      ∧ ∀ r, call f (routing b') = Some (r, true) →
             broadcasting (with_routing b' r) (cur ++ log ++ [Called f true])
  | Halt _ log _ => quiet log
  end.
Proof.
  unfold broadcasting, pass. intros Hcur.
  destruct (receive b evs) as [iv [f|] evs'|why|iv err|iv]; try by constructor.
  - split; [constructor|]. intros r _. simpl.
    destruct (Processed (state b)).
    + apply in_order_app; [done|by repeat constructor].
    + rewrite sends_app, Hcur. by apply sends_none; repeat constructor.
  - simpl. destruct (Processed (state b)) eqn:HP.
    + apply (finish_in_order cur (with_inputValues b iv));
        [constructor|by rewrite app_nil_r].
    + destruct (kernel b iv (outputValues (state b)) evs')
        as [ov [f|] evs''|why|ov err|ov]; try by constructor.
      * split; [by repeat constructor|]. intros r _. simpl. rewrite HP.
        rewrite sends_app, Hcur. by apply sends_none; repeat constructor.
      * apply (finish_in_order cur (with_outputValues (with_inputValues b iv) ov));
          [by repeat constructor|].
        exists cur, []. by repeat split.
Qed.

Lemma Serve_in_order (fuel : nat) (b : Block) (evs : list Event) :
  Processed (state b) = false →
  Forall (λ cyc, ∃ ov, in_order ov cyc.1) (cycles (trace (Serve fuel b evs))).
Proof.
  intros HP. apply (Serve_cycles broadcasting).
  - intros b' evs' cur. apply pass_in_order.
  - unfold broadcasting. by rewrite HP.
Qed.

(** X10. Within a completed cycle, nothing is sent before the kernel has
    returned [nil]: every send of the cycle comes after that invocation. *)
Theorem sends_follow_the_kernel
    (fuel : nat) (b : Block) (evs : list Event) (cyc : list Obs * list Output) :
  Processed (state b) = false →
  cyc ∈ cycles (trace (Serve fuel b evs)) →
  ∃ pre post, cyc.1 = pre ++ Invoked None :: post ∧ sends pre = [].
Proof.
  intros HP Hcyc. pose proof (Serve_in_order fuel b evs HP) as Hall.
  rewrite Forall_forall in Hall.
  destruct (Hall cyc Hcyc) as (ov & pre & post & Heq & Hpre & _).
  by exists pre, post.
Qed.

(** X11. Within a completed cycle, all the connections of an output are sent
    the same message, also when the broadcast was interrupted and resumed
    in between: two sends from one output carry equal messages. *)
Theorem same_message_to_every_connection
    (fuel : nat) (b : Block) (evs : list Event) (cyc : list Obs * list Output)
    (id : RouteID) (c c' : Connection) (m m' : Message) :
  Processed (state b) = false →
  cyc ∈ cycles (trace (Serve fuel b evs)) →
  Sent id c m ∈ cyc.1 →
  Sent id c' m' ∈ cyc.1 →
  m = m'.
Proof.
  intros HP Hcyc Hm Hm'. pose proof (Serve_in_order fuel b evs HP) as Hall.
  rewrite Forall_forall in Hall.
  destruct (Hall cyc Hcyc) as (ov & pre & post & Heq & Hpre & Hpost).
  assert (∀ i k x, Sent i k x ∈ cyc.1 → x = index ov i) as Hcar.
  { intros i k x. rewrite Heq.
    intros [Hin|[Hin|Hin]%elem_of_cons]%elem_of_app; [|done|].
    - exfalso. assert ((i, k) ∈ sends pre) as Hs.
      { apply list_elem_of_omap. by exists (Sent i k x). }
      rewrite Hpre in Hs. by apply elem_of_nil in Hs.
    - rewrite Forall_forall in Hpost. apply (Hpost _ Hin). }
  by rewrite (Hcar _ _ _ Hm), (Hcar _ _ _ Hm').
Qed.

(** ** The library as a whole *)

Ltac entry H :=
  apply elem_of_list_to_map_2 in H;
  repeat (apply elem_of_cons in H as [H|H]);
  [..|by apply elem_of_nil in H];
  injection H as -> ->.

Ltac elsewhere :=
  solve [left; apply (bool_decide_unpack _); vm_compute; exact I].

Lemma declared_grows (k : RouteID) (written before allowed : gset RouteID) :
  k ∈ allowed →
  written ⊆ before ∪ allowed →
  {[ k ]} ∪ written ⊆ before ∪ allowed.
Proof. intros Hk Hw. apply union_least; [|done]. set_solver. Qed.

Ltac kernels :=
  unfold Addition, Subtraction, Multiplication, Division, Exponentiation,
    Modulation, GreaterThan, LessThan, dyad; simpl.

(** X15. Every kernel of [library.go] writes only outputs its spec declares:
    what it adds to the output map are indices below the number of its
    output pins. *)
Theorem library_writes_declared_outputs_only :
  map_Forall (λ name spec, name ∈ elsewhere_names ∨ writes_declared_only spec)
    GetLibrary.
Proof.
  intros name spec H. entry H; first [elsewhere|right];
    intros p inp out internal s i; kernels; unfold declared;
    repeat case_match; simpl in *; simplify_eq; try done;
    rewrite ?dom_insert_L;
    repeat (apply declared_grows;
            [apply (bool_decide_unpack _); vm_compute; exact I|]);
    apply union_subseteq_l.
Qed.

Ltac written :=
  first
    [ by (right; unfold NewError; eexists _, _; apply lookup_insert_eq)
    | left; let k := fresh "k" in let Hk := fresh "Hk" in
      intros k Hk; simpl in Hk; destruct k as [|[|k]]; try lia;
      rewrite ?lookup_insert_eq; rewrite ?lookup_insert_ne by done;
      rewrite ?lookup_insert_eq; eauto ].

(** X16. Every kernel of [library.go] that returns [nil] has written all the
    outputs its spec declares, or an error on output 0. *)
Theorem library_populates_outputs_or_reports :
  map_Forall (λ name spec, name ∈ elsewhere_names ∨ populates_or_reports spec)
    GetLibrary.
Proof.
  intros name spec H. entry H; first [elsewhere|right];
    intros p inp internal s i; kernels;
    repeat case_match; simplify_eq; try done; written.
Qed.

(** X17. The interrupt a kernel of [library.go] returns is the one it took
    from the interrupt channel, and it has written no output then; a
    kernel that returns [nil] took no interrupt from the channel: it
    consumed nothing, or the firing of its timer. *)
Theorem library_returns_received_interrupt :
  map_Forall (λ name spec,
                name ∈ elsewhere_names ∨ returns_received_interrupt spec)
    GetLibrary.
Proof.
  intros name spec H. entry H; first [elsewhere|right];
    intros p inp out internal s i; kernels;
    repeat case_match; simplify_eq; auto.
Qed.

(** X18. No kernel of [library.go] but [First] changes the internal map:
    each of the others returns it as it was handed. *)
Theorem library_keeps_internal :
  map_Forall (λ name spec,
                name = "first" ∨ name ∈ elsewhere_names ∨ keeps_internal spec)
    GetLibrary.
Proof.
  intros name spec H. entry H;
    first [by left|right; first [elsewhere|right]];
    intros p inp out internal s i; kernels;
    repeat case_match; simpl in *; simplify_eq; done.
Qed.

(** X19. No kernel of [library.go] but [Set], [Delay], [Head], [Tail],
    [EqualTo] and [NotEqualTo] panics, whatever its inputs: not the
    dyads, [÷] by zero included, nor [Latch], [Gate], [Identity],
    [Append], [Log], [Sink] and [First]. *)
Theorem library_panics_in_six_kernels_only :
  map_Forall (λ name spec,
                name ∈ ["set"; "delay"; "head"; "tail"; "=="; "!="]
                ∨ name ∈ elsewhere_names ∨ never_panics spec)
    GetLibrary.
Proof.
  intros name spec H. entry H;
    first [elsewhere|right; first [elsewhere|right]];
    intros p inp out internal s i; kernels;
    repeat case_match; simplify_eq; done.
Qed.

(** ** The comparison kernels *)

Lemma SFcompare_antisym (x y : SpecFloat.spec_float) :
  SpecFloat.SFcompare y x = option_map CompOpp (SpecFloat.SFcompare x y).
Proof.
  destruct x as [sx|sx| |sx mx ex], y as [sy|sy| |sy my ey]; simpl;
    try (by destruct sx); try (by destruct sy); try (by destruct sx, sy).
  f_equal. change (Pos.compare_cont Eq) with Pos.compare.
  rewrite (Z.compare_antisym ey ex), (Pos.compare_antisym my mx).
  destruct sx, sy; try done; destruct (ey ?= ex)%Z; simpl; try done;
    by rewrite CompOpp_involutive.
Qed.

Lemma float_eqb_sym (a b : float) : PrimFloat.eqb a b = PrimFloat.eqb b a.
Proof.
  rewrite !FloatAxioms.eqb_spec. unfold SpecFloat.SFeqb.
  rewrite (SFcompare_antisym (FloatOps.Prim2SF a) (FloatOps.Prim2SF b)).
  by destruct (SpecFloat.SFcompare _ _) as [[| |]|].
Qed.

Lemma float_order_exclusive (a b : float) :
  PrimFloat.ltb a b && PrimFloat.ltb b a = false
  ∧ PrimFloat.ltb a b && PrimFloat.eqb a b = false
  ∧ PrimFloat.ltb b a && PrimFloat.eqb a b = false.
Proof.
  rewrite !FloatAxioms.ltb_spec, !FloatAxioms.eqb_spec.
  unfold SpecFloat.SFltb, SpecFloat.SFeqb.
  rewrite (SFcompare_antisym (FloatOps.Prim2SF a) (FloatOps.Prim2SF b)).
  by destruct (SpecFloat.SFcompare _ _) as [[| |]|].
Qed.

Lemma go_eq_sym (x y : Message) : go_eq x y = go_eq y x.
Proof.
  destruct x, y; simpl; try done; f_equal.
  - apply float_eqb_sym.
  - by destruct b, b0.
  - apply String.eqb_sym.
  - apply Nat.eqb_sym.
Qed.

(** X20. [EqualTo] and [NotEqualTo] do not depend on the order of their two
    inputs: with the inputs swapped each returns the same boolean, or
    panics as before. *)
Theorem EqualTo_is_symmetric
    (p : Addr) (x y : Message) (out internal : MessageMap) (s : Store)
    (i : list Event) :
  Kernel EqualTo p {[ 0 := x; 1 := y ]} out internal s i =
    Kernel EqualTo p {[ 0 := y; 1 := x ]} out internal s i
  ∧ Kernel NotEqualTo p {[ 0 := x; 1 := y ]} out internal s i =
      Kernel NotEqualTo p {[ 0 := y; 1 := x ]} out internal s i.
Proof.
  simpl. change (index {[ 0 := x; 1 := y ]} 0) with x.
  change (index {[ 0 := x; 1 := y ]} 1) with y.
  change (index {[ 0 := y; 1 := x ]} 0) with y.
  change (index {[ 0 := y; 1 := x ]} 1) with x.
  by rewrite (go_eq_sym x y).
Qed.

(** X21. [NotEqualTo] is the negation of [EqualTo] on every input map: where one
    returns a boolean the other returns its negation, and where one panics
    so does the other. *)
Theorem NotEqualTo_negates_EqualTo
    (p : Addr) (inp out internal : MessageMap) (s : Store) (i : list Event) :
  match Kernel EqualTo p inp out internal s i with
  | Returned (o, internal') f rest =>
      ∃ b, o = <[0 := MBool b]> out
           ∧ Kernel NotEqualTo p inp out internal s i =
               Returned (<[0 := MBool (negb b)]> out, internal') f rest
  | r => Kernel NotEqualTo p inp out internal s i = r
  end.
Proof.
  simpl. destruct (go_eq (index inp 0) (index inp 1)) as [b|]; [|done].
  by exists b.
Qed.

(** X22. [EqualTo] panics exactly when both inputs are sequences or both are
    mappings; on two messages of different variants it returns [false]. *)
Theorem EqualTo_panics_on_two_aggregates_only
    (p : Addr) (inp out internal : MessageMap) (s : Store) (i : list Event) :
  match index inp 0, index inp 1 with
  | MArray _, MArray _ | MObject _, MObject _ =>
      Kernel EqualTo p inp out internal s i = Panicked Uncomparable
  | MNil, MNil | MFloat _, MFloat _ | MBool _, MBool _ | MString _, MString _
  | MError _ _, MError _ _ | MStruct, MStruct =>
      ∃ b, Kernel EqualTo p inp out internal s i =
             Returned (<[0 := MBool b]> out, internal) None i
  | _, _ =>
      Kernel EqualTo p inp out internal s i =
        Returned (<[0 := MBool false]> out, internal) None i
  end.
Proof.
  simpl. destruct (index inp 0), (index inp 1); simpl; try done; by eexists.
Qed.

(** X23. On two numbers, at most one of [<], [>] and [==] answers [true], and
    [>] is [<] with the inputs swapped. *)
Theorem comparisons_exclude_each_other
    (p : Addr) (a b : float) (out internal : MessageMap) (s : Store)
    (i : list Event) :
  ∃ lt gt eq,
    Kernel LessThan p {[ 0 := MFloat a; 1 := MFloat b ]} out internal s i =
      Returned (<[0 := MBool lt]> out, internal) None i
    ∧ Kernel GreaterThan p {[ 0 := MFloat a; 1 := MFloat b ]} out internal s i =
        Returned (<[0 := MBool gt]> out, internal) None i
    ∧ Kernel LessThan p {[ 0 := MFloat b; 1 := MFloat a ]} out internal s i =
        Returned (<[0 := MBool gt]> out, internal) None i
    ∧ Kernel EqualTo p {[ 0 := MFloat a; 1 := MFloat b ]} out internal s i =
        Returned (<[0 := MBool eq]> out, internal) None i
    ∧ lt && gt = false ∧ lt && eq = false ∧ gt && eq = false.
Proof.
  exists (PrimFloat.ltb a b), (PrimFloat.ltb b a), (PrimFloat.eqb a b).
  repeat (split; [reflexivity|]). apply float_order_exclusive.
Qed.

(** ** Kernels one after the other *)

Lemma index_insert_ne (m : MessageMap) (j k : RouteID) (v : Message) :
  j ≠ k → index (<[j := v]> m) k = index m k.
Proof. intros Hjk. unfold index. by rewrite lookup_insert_ne. Qed.

(** X24. The two outputs of [Head] fed to [Append], the head as element and the
    tail as array, give the array rotated by one place: a non-empty
    array passes through both kernels with its elements kept and its first
    element moved to the end. *)
Theorem Head_then_Append_rotates
    (p q : Addr) (A : list Message)
    (out out' internal internal' : MessageMap) (s s' : Store) (i i' : list Event) :
  1 ≤ length A →
  ∃ split joined,
    Kernel Head p {[ 0 := MArray A ]} out internal s i =
      Returned (split, internal) None i
    ∧ Kernel Append q {[ 0 := index split 0; 1 := index split 1 ]}
        out' internal' s' i' = Returned (joined, internal') None i'
    ∧ joined !! 0 = Some (MArray (rotate 1 A)).
Proof.
  intros HA. destruct A as [|x rest]; [simpl in HA; lia|].
  eexists _, _. split.
  { apply Head_on_cons. by rewrite index_singleton. }
  rewrite index_insert_eq, index_insert_ne, index_insert_eq by done.
  split; [reflexivity|]. rewrite lookup_insert_eq. do 2 f_equal.
  unfold rotate. destruct rest as [|y rest]; [done|].
  rewrite Nat.mod_small by (simpl; lia). done.
Qed.

(** X25. [First] feeding the [ctrl] input of [Latch]: the message of the first
    invocation leaves [Latch] on output 0, with [nil] on output 1; with
    the internal map [First] has left behind, the message of any later
    invocation leaves on output 1, with [nil] on output 0. *)
Theorem First_then_Latch
    (p q : Addr) (inp m : Message) (latched : MessageMap) (s : Store)
    (i : list Event) :
  ∃ first later remembered,
    Kernel First p {[ 0 := inp ]} ∅ ∅ s i =
      Returned (first, remembered) None i
    ∧ Kernel Latch q {[ 0 := m; 1 := index first 0 ]} latched ∅ s i =
        Returned (<[1 := MNil]> (<[0 := m]> latched), ∅) None i
    ∧ Kernel First p {[ 0 := inp ]} ∅ remembered s i =
        Returned (later, remembered) None i
    ∧ Kernel Latch q {[ 0 := m; 1 := index later 0 ]} latched ∅ s i =
        Returned (<[0 := MNil]> (<[1 := m]> latched), ∅) None i.
Proof. eexists _, _, _. repeat split. Qed.

(** ** The kernel and the inputs *)

Lemma finish_with_kernel
    (b : Block) (k k' : BlockKernel) (log : list Obs) (evs : list Event) :
  finish (with_kernel b k') log evs =
    pass_with_kernel k' (finish (with_kernel b k) log evs).
Proof.
  unfold finish.
  change (broadcast (with_Processed (with_kernel b k') true) evs)
    with (broadcast (with_Processed (with_kernel b k) true) evs).
  by destruct (broadcast _ evs) as [[mf sent] [f|] evs'|why|[mf sent] err|[mf sent]].
Qed.

Lemma pass_on_full_inputs
    (b : Block) (k k' : BlockKernel) (evs : list Event) :
  (∀ inp out i,
     (∀ id, id < length (routing_Inputs (routing b)) → is_Some (inp !! id)) →
     k inp out i = k' inp out i) →
  pass (with_kernel b k') evs = pass_with_kernel k' (pass (with_kernel b k) evs).
Proof.
  intros Hagree. unfold pass.
  change (receive (with_kernel b k') evs) with (receive (with_kernel b k) evs).
  destruct (receive (with_kernel b k) evs) as [iv [f|] evs'|why|iv err|iv]
    eqn:Hrec; try done.
  simpl. destruct (Processed (state b)).
  { apply (finish_with_kernel (with_inputValues b iv)). }
  rewrite <- Hagree.
  - destruct (k iv (outputValues (state b)) evs')
      as [ov [f|] evs''|why|ov err|ov]; try done.
    apply (finish_with_kernel (with_outputValues (with_inputValues b iv) ov)).
  - intros id Hid. by apply (receive_from_fills _ 0 _ _ _ _ id Hrec).
Qed.

Lemma with_kernel_id (b : Block) (k : BlockKernel) :
  kernel b = k → with_kernel b k = b.
Proof. intros <-. by destruct b. Qed.

Lemma call_keeps_inputs (f : InterruptFunc) (r r' : BlockRouting) (ok : bool) :
  call f r = Some (r', ok) →
  length (routing_Inputs r') = length (routing_Inputs r).
Proof.
  intros Hcall. apply call_keeps_ports in Hcall. unfold ports in Hcall.
  injection Hcall as Hin _ _.
  by rewrite <- (length_fmap (λ input, (route_Name input, C input))), Hin,
    length_fmap.
Qed.

Lemma Serve_on_full_inputs
    (n : nat) (k k' : BlockKernel) (fuel : nat) (b : Block) (evs : list Event) :
  (∀ inp out i, (∀ id, id < n → is_Some (inp !! id)) → k inp out i = k' inp out i) →
  length (routing_Inputs (routing b)) = n →
  Serve fuel (with_kernel b k') evs =
    run_with_kernel k' (Serve fuel (with_kernel b k) evs).
Proof.
  intros Hagree. revert b evs.
  induction fuel as [|fuel IH]; intros b evs Hn; simpl; [done|].
  rewrite (pass_on_full_inputs b k k') by (by rewrite Hn).
  pose proof (pass_keeps_routing (with_kernel b k) evs) as Hkeep.
  destruct (pass (with_kernel b k) evs) as [b1 log evs'|b1 log f evs'|b1 log e];
    simpl; try done; destruct Hkeep as [Hr Hk]; simpl in Hr, Hk.
  - rewrite (IH b1) by (by rewrite Hr). by rewrite (with_kernel_id b1 k).
  - destruct (call f (routing b1)) as [[r [|]]|] eqn:Hcall; try done.
    change (with_routing (with_kernel b1 k') r)
      with (with_kernel (with_routing b1 r) k').
    rewrite (IH (with_routing b1 r)).
    + by rewrite (with_kernel_id (with_routing b1 r) k).
    + simpl. by rewrite (call_keeps_inputs _ _ _ _ Hcall), Hr.
Qed.

(** X9. [Serve] invokes the kernel only on an input map that holds a value for
    every input of the block: two kernels that agree on such maps give
    the same run, whatever they do on an input map with a value missing. *)
Theorem kernel_runs_on_full_inputs
    (k k' : BlockKernel) (fuel : nat) (b : Block) (evs : list Event) :
  (∀ inp out i,
     (∀ id, id < length (routing_Inputs (routing b)) → is_Some (inp !! id)) →
     k inp out i = k' inp out i) →
  Serve fuel (with_kernel b k') evs =
    run_with_kernel k' (Serve fuel (with_kernel b k) evs).
Proof.
  intros Hagree.
  by apply (Serve_on_full_inputs (length (routing_Inputs (routing b))) k k').
Qed.

(** ** A new block *)

Lemma finish_waits_for_connections
    (b : Block) (log : list Obs) (evs : list Event) :
  quiet log →
  match finish b log evs with
  | Next _ _ _ =>
      Forall (λ out, size (Connections out) ≠ 0) (routing_Outputs (routing b))
  | Break _ log' _ _ | Halt _ log' _ => quiet log'
  end.
Proof.
  intros Hq. unfold finish.
  destruct (broadcast (with_Processed b true) evs)
    as [[mf sent] [f|] evs'|why|[mf sent] err|[mf sent]] eqn:Hb; try done.
  - apply quiet_app; [done|]. apply sends_only_sends_quiet.
    apply (broadcast_only_sends (with_Processed b true) evs mf).
    by rewrite Hb.
  - apply (broadcast_from_connected _ _ _ _ _ _ _ _ Hb).
  - apply quiet_app; [done|]. apply sends_only_sends_quiet.
    apply (broadcast_only_sends (with_Processed b true) evs mf).
    by rewrite Hb.
  - apply quiet_app; [done|]. apply sends_only_sends_quiet.
    apply (broadcast_only_sends (with_Processed b true) evs mf).
    by rewrite Hb.
Qed.

Lemma pass_waits_for_connections (b : Block) (evs : list Event) :
  match pass b evs with
  | Next _ _ _ =>
      Forall (λ out, size (Connections out) ≠ 0) (routing_Outputs (routing b))
  | Break _ log _ _ | Halt _ log _ => quiet log
  end.
Proof.
  unfold pass.
  destruct (receive b evs) as [iv [f|] evs'|why|iv err|iv];
    try apply Forall_nil_2.
  simpl. destruct (Processed (state b)).
  { apply (finish_waits_for_connections (with_inputValues b iv)).
    apply Forall_nil_2. }
  destruct (kernel b iv (outputValues (state b)) evs')
    as [ov [f|] evs''|why|ov err|ov]; try apply Forall_nil_2.
  - by repeat constructor.
  - apply (finish_waits_for_connections
             (with_outputValues (with_inputValues b iv) ov)).
    by repeat constructor.
Qed.

Lemma call_leaves_unconnected
    (f : InterruptFunc) (r r' : BlockRouting) (ok : bool)
    (id : RouteID) (out : Output) :
  call f r = Some (r', ok) →
  routing_Outputs r !! id = Some out →
  size (Connections out) = 0 →
  (∃ c, f = Connect id c)
  ∨ ∃ out', routing_Outputs r' !! id = Some out' ∧ size (Connections out') = 0.
Proof.
  intros Hcall Hout Hsize.
  destruct f as [k v|k q|k c|k c|]; simpl in Hcall.
  - destruct (routing_Inputs r !! k); [|done].
    injection Hcall as <- _. right. by exists out.
  - destruct (routing_Inputs r !! k); [|done].
    injection Hcall as <- _. right. by exists out.
  - destruct (decide (k = id)) as [->|Hne]; [left; by exists c|].
    destruct (routing_Outputs r !! k); [|done].
    injection Hcall as <- _. right. exists out. simpl.
    by rewrite list_lookup_insert_ne.
  - destruct (routing_Outputs r !! k) as [o|] eqn:Hk; [|done].
    injection Hcall as <- _. right. simpl.
    destruct (decide (k = id)) as [->|Hne].
    + eexists. split.
      * apply list_lookup_insert_eq. by apply lookup_lt_Some in Hk.
      * simpl. rewrite Hout in Hk. injection Hk as <-.
        apply size_empty_inv in Hsize. apply size_empty_iff.
        intros x. split; [|intros Hx; by apply elem_of_empty in Hx].
        rewrite elem_of_difference. intros [Hx _]. by apply Hsize in Hx.
    + exists out. by rewrite list_lookup_insert_ne.
  - injection Hcall as <- _. right. by exists out.
Qed.

Lemma Serve_waits_for_connections
    (id : RouteID) (fuel : nat) (b : Block) (evs : list Event) (out : Output) :
  routing_Outputs (routing b) !! id = Some out →
  size (Connections out) = 0 →
  quiet (trace (Serve fuel b evs))
  ∨ ∃ c, Called (Connect id c) true ∈ trace (Serve fuel b evs).
Proof.
  revert b evs out.
  induction fuel as [|fuel IH]; intros b evs out Hout Hsize; simpl.
  { left. apply Forall_nil_2. }
  pose proof (pass_waits_for_connections b evs) as Hwait.
  pose proof (pass_keeps_routing b evs) as Hkeep.
  destruct (pass b evs) as [b' log evs'|b' log f evs'|b' log e]; simpl.
  - rewrite Forall_lookup in Hwait. by destruct (Hwait id out Hout).
  - destruct Hkeep as [Hr _].
    destruct (call f (routing b')) as [[r [|]]|] eqn:Hcall; simpl.
    + rewrite Hr in Hcall.
      destruct (call_leaves_unconnected _ _ _ _ id out Hcall Hout Hsize)
        as [[c ->]|(out' & Hout' & Hsize')].
      * right. exists c. apply elem_of_app. left. apply elem_of_app. right.
        apply list_elem_of_singleton. reflexivity.
      * destruct (IH (with_routing b' r) evs' out' Hout' Hsize')
          as [Hq|[c Hc]].
        -- left. apply quiet_app; [|done]. apply quiet_app; [done|].
           by repeat constructor.
        -- right. exists c. apply elem_of_app. by right.
    + left. apply quiet_app; [done|]. by repeat constructor.
    + by left.
  - by left.
Qed.

(** X14. The outputs of a new block have no connections, and [broadcast] waits
    on an output without one: a run of a new block completes a cycle only
    after an interrupt has connected every output the spec declares. *)
Theorem new_block_waits_for_connections
    (s : Spec BlockKernel) (ch : Connection) (fuel : nat) (evs : list Event)
    (id : RouteID) :
  id < length (Outputs s) →
  cycles (trace (Serve fuel (NewBlock s ch) evs)) ≠ [] →
  ∃ c, Called (Connect id c) true ∈ trace (Serve fuel (NewBlock s ch) evs).
Proof.
  intros Hid Hcyc.
  destruct (lookup_lt_is_Some_2 (Outputs s) id Hid) as [pin Hpin].
  destruct (Serve_waits_for_connections id fuel (NewBlock s ch) evs
              {| out_Name := pin_Name pin; Connections := ∅ |})
    as [Hq|Hc]; try done.
  - simpl. by rewrite list_lookup_fmap, Hpin.
  - destruct Hcyc. by apply cycles_from_quiet_nil.
Qed.

(** ** What the engine hands the kernel *)




(** ** Where [log.Fatal] is called *)

Lemma deliver_goes_on
    (id : RouteID) (name : string) (v : Message) (cs : list Connection)
    (mf : Manifest) (log : list Obs) (evs : list Event) :
  match deliver id name v cs mf log evs with
  | Returned _ _ _ | Parked _ => True
  | Panicked _ | Exited _ _ => False
  end.
Proof.
  revert mf log evs. induction cs as [|c cs IH]; intros mf log evs; simpl;
    [done|].
  case_decide; [apply IH|].
  destruct evs as [|[m| | |f] evs]; try done. apply IH.
Qed.

Lemma broadcast_from_goes_on
    (id : RouteID) (outs : list Output) (ov : MessageMap) (mf : Manifest)
    (log : list Obs) (evs : list Event) :
  match broadcast_from id outs ov mf log evs with
  | Returned _ _ _ | Parked _ => True
  | Panicked _ | Exited _ _ => False
  end.
Proof.
  revert id mf log evs.
  induction outs as [|out outs IH]; intros id mf log evs; simpl; [done|].
  case_decide.
  { by destruct evs as [|[m| | |f] evs]. }
  pose proof (deliver_goes_on id (out_Name out) (index ov id)
                (range (Connections out)) mf log evs) as Hd.
  destruct (deliver id (out_Name out) (index ov id) (range (Connections out))
              mf log evs) as [[mf' log'] [f|] evs'|why|[mf' log'] err|[mf' log']];
    try done. apply IH.
Qed.

(** A pass ends in [log.Fatal] only when [receive] or the kernel called
    it: [broadcast] never does. *)
Lemma pass_fatal
    (b b' : Block) (evs : list Event) (log : list Obs) (e : string) :
  pass b evs = Halt b' log (Fatal e) →
  (∃ iv, receive b evs = Exited iv e)
  ∨ (∃ inp out i ov, kernel b inp out i = Exited ov e).
Proof.
  assert (∀ b0 log0 evs0, finish b0 log0 evs0 ≠ Halt b' log (Fatal e))
    as Hfinish.
  { intros b0 log0 evs0. unfold finish.
    pose proof (broadcast_from_goes_on 0
                  (routing_Outputs (routing (with_Processed b0 true)))
                  (outputValues (state (with_Processed b0 true)))
                  (manifest (state (with_Processed b0 true))) [] evs0) as Hb.
    unfold broadcast.
    by destruct (broadcast_from 0 _ _ _ [] evs0)
      as [[mf sent] [f|] evs1|why|[mf sent] err|[mf sent]]. }
  unfold pass.
  destruct (receive b evs) as [iv [f|] evs1|why|iv err|iv] eqn:Hrec; try done.
  - simpl. destruct (Processed (state b)).
    { intros Hf. by apply Hfinish in Hf. }
    destruct (kernel b iv (outputValues (state b)) evs1)
      as [ov [f|] evs2|why|ov err|ov] eqn:Hk; try done.
    + intros Hf. by apply Hfinish in Hf.
    + intros [= _ _ ->]. right. by exists iv, (outputValues (state b)), evs1, ov.
  - intros [= _ _ ->]. left. by exists iv.
Qed.

Lemma Serve_fatal (fuel : nat) (b : Block) (evs : list Event) (e : string) :
  exit (Serve fuel b evs) = Fatal e →
  (∃ b' evs' iv, receive b' evs' = Exited iv e)
  ∨ (∃ inp out i ov, kernel b inp out i = Exited ov e).
Proof.
  revert b evs. induction fuel as [|fuel IH]; intros b evs; simpl; [done|].
  pose proof (pass_keeps_routing b evs) as Hkeep.
  destruct (pass b evs) as [b' log evs'|b' log f evs'|b' log x] eqn:Hp; simpl.
  - destruct Hkeep as [_ Hk]. intros Hx.
    destruct (IH _ _ Hx) as [?|Hker]; [by left|]. right. by rewrite <- Hk.
  - destruct Hkeep as [_ Hk].
    destruct (call f (routing b')) as [[r [|]]|]; simpl; try done.
    intros Hx. destruct (IH _ _ Hx) as [?|Hker]; [by left|].
    right. by rewrite <- Hk.
  - intros ->. destruct (pass_fatal _ _ _ _ _ Hp) as [[iv Hrec]|Hker].
    + left. by exists b, evs, iv.
    + by right.
Qed.

End Further.

(** * Paths that do not resolve *)

Section Paths.
Context `{O : Order}.

(** With paths as the spec describes them, [fetch.Run] returns no error,
    and [receive] never calls [log.Fatal]. *)
Lemma receive_from_goes_on
    (inputs : list (@Route selectors)) (id : RouteID) (iv : MessageMap)
    (evs : list Event) :
  match receive_from id inputs iv evs with
  | Returned _ _ _ | Parked _ => True
  | Panicked _ | Exited _ _ => False
  end.
Proof.
  revert id iv evs.
  induction inputs as [|input inputs IH]; intros id iv evs; simpl; [done|].
  destruct (iv !! id); [apply IH|].
  destruct (Value input); [apply IH|].
  destruct evs as [|[m| | |f] evs]; try done. apply IH.
Qed.

(** C1. With paths as the spec describes them: when a message arrives on
    the channel of the input [receive] waits on and the input's path does
    not resolve on it, [receive] stores null for that input and goes on to
    the next input; it does not call [log.Fatal]; and no run of a block
    ends in [log.Fatal] unless the block's kernel calls it. *)
Theorem path_miss_stores_null
    (id : RouteID) (input : @Route selectors) (inputs : list Route)
    (iv : MessageMap) (m : Message) (evs : list Event) :
  iv !! id = None →
  Value input = None →
  resolve (Path input) m = None →
  receive_from id (input :: inputs) iv (Arrive m :: evs) =
    receive_from (S id) inputs (<[id := MNil]> iv) evs
  ∧ (∀ iv' e,
       receive_from id (input :: inputs) iv (Arrive m :: evs) ≠ Exited iv' e)
  ∧ (∀ fuel (b : @Block selectors) evs' e,
       (∀ inp out i ov e', kernel b inp out i ≠ Exited ov e') →
       exit (Serve fuel b evs') ≠ Fatal e).
Proof.
  intros Hid Hpin Hmiss. split; [|split].
  - rewrite (receive_applies_Path id input inputs iv m MNil None evs);
      [done..|]. simpl. by rewrite Hmiss.
  - intros iv' e Hex.
    pose proof (receive_from_goes_on (input :: inputs) id iv (Arrive m :: evs))
      as Hgo. by rewrite Hex in Hgo.
  - intros fuel b evs' e Hker Hex.
    destruct (Serve_fatal _ _ _ _ Hex) as [(b' & evs0 & iv0 & Hrec)|Hk].
    + pose proof (receive_from_goes_on (routing_Inputs (routing b')) 0
                    (inputValues (state b')) evs0) as Hgo.
      unfold receive in Hrec. by rewrite Hrec in Hgo.
    + destruct Hk as (inp & out & i & ov & Hk). by apply Hker in Hk.
Qed.

End Paths.

(** * Examples *)

#[local] Existing Instance keys.
#[local] Existing Instance ascending.

(** A block whose input path is [.k] receives the number 1: the
    path does not resolve, null is stored for the input and handed to the
    kernel, and the block goes on to wait for a connection. *)
Lemma unresolved_path_stores_null :
  state (final (Serve 2 (NewBlock forwarding 0)
                  [Interrupted (@RoutePath selectors 0 [Field "k"]); Arrive (MFloat 1)]))
    = {| inputValues := {[ 0 := MNil ]}; outputValues := {[ 0 := MNil ]};
         manifest := ∅; Processed := true |}
  ∧ exit (Serve 2 (NewBlock forwarding 0)
            [Interrupted (@RoutePath selectors 0 [Field "k"]); Arrive (MFloat 1)])
    = Waiting.
Proof. split; vm_compute; reflexivity. Qed.

Lemma path_miss_stores_null_witness :
  resolve [Field "k"] (MFloat 1) = None
  ∧ @receive_from selectors 0
      [ @Build_Route selectors "in" [Field "k"] None 0 ] ∅ [ Arrive (MFloat 1) ]
    = Returned (<[0 := MNil]> ∅) None []
  ∧ exit (Serve 2 (NewBlock forwarding 0)
            [Interrupted (@RoutePath selectors 0 [Field "k"]); Arrive (MFloat 1)])
    ≠ Fatal "no object at k".
Proof.
  split; [reflexivity|].
  assert ((∅ : MessageMap) !! 0 = None) as Hid by reflexivity.
  destruct (path_miss_stores_null (O := ascending) 0
              (@Build_Route selectors "in" [Field "k"] None 0) [] ∅
              (MFloat 1) [] Hid eq_refl eq_refl)
    as (Hstore & _ & Hrun).
  split; [exact Hstore|].
  apply Hrun. intros inp out i ov e'. discriminate.
Defined.



(** C4, counterexample. The kernel of a block that waits as [Delay] does is
    invoked, returns the interrupt that arrives during its wait, and is
    invoked again when the cycle resumes: two executions in one cycle. *)
Lemma interrupted_kernel_runs_again :
  (λ cyc : list Obs * list Output, (invocations cyc.1, completions cyc.1))
    <$> cycles (trace (Serve 2 (NewBlock waiting 0)
                         [Arrive (MFloat 1); Interrupted (Connect 0 7);
                          TimerFired; Delivered]))
  = [ (2, 1) ].
Proof. vm_compute. reflexivity. Qed.

Lemma kernel_completes_once_witness :
  Processed (state (NewBlock waiting 0)) = false
  ∧ completions [Invoked (Some (Connect 0 7)); Called (Connect 0 7) true;
                 Invoked None; Sent 0 7 (MFloat 1)] = 1
  ∧ last_invoked [Invoked (Some (Connect 0 7)); Called (Connect 0 7) true;
                  Invoked None; Sent 0 7 (MFloat 1)] = Some None.
Proof.
  split; [reflexivity|].
  apply (kernel_completes_once_per_cycle
           2 (NewBlock waiting 0)
           [Arrive (MFloat 1); Interrupted (Connect 0 7); TimerFired; Delivered]
           ([Invoked (Some (Connect 0 7)); Called (Connect 0 7) true;
             Invoked None; Sent 0 7 (MFloat 1)],
            [ {| out_Name := "passthrough"; Connections := {[ 7 ]} |} ])).
  - reflexivity.
  - vm_compute. left.
Defined.

Lemma Append_then_Head_witness :
  1 ≤ length [MFloat 1; MFloat 2]
  ∧ ∃ appended heads,
      Kernel Append 0 {[ 0 := MFloat 3; 1 := MArray [MFloat 1; MFloat 2] ]}
        ∅ ∅ ∅ [] = Returned (appended, ∅) None []
      ∧ Kernel Head 1 {[ 0 := index appended 0 ]} ∅ ∅ ∅ [] =
          Returned (heads, ∅) None []
      ∧ heads !! 0 = Some (MFloat 1)
      ∧ heads !! 1 = Some (MArray [MFloat 2; MFloat 3]).
Proof.
  split; [simpl; lia|].
  apply (Append_then_Head 0 1 (MFloat 3) [MFloat 1; MFloat 2] ∅ ∅ ∅ ∅ ∅ ∅ [] []).
  simpl. lia.
Defined.

(** ** The further properties at concrete blocks *)

Lemma receive_fills_every_input_witness :
  payload (receive (NewBlock copying 0) [Arrive (MFloat 1)])
    = Some (<[0 := MFloat 1]> ∅)
  ∧ is_Some ((<[0 := MFloat 1]> ∅ : MessageMap) !! 0).
Proof.
  split; [reflexivity|].
  destruct (receive_fills_every_input (NewBlock copying 0) [Arrive (MFloat 1)]
              (<[0 := MFloat 1]> ∅) eq_refl) as [_ Hfull].
  apply (Hfull [] 0); [reflexivity|simpl; lia].
Defined.

Lemma pinned_inputs_need_no_message_witness :
  Forall (λ input : Route, is_Some (Value input))
    [ {| route_Name := "in"; Path := fetch_dot; Value := Some (MFloat 1); C := 0 |} ]
  ∧ ∃ iv',
      receive_from 0
        [ {| route_Name := "in"; Path := fetch_dot; Value := Some (MFloat 1); C := 0 |} ]
        ∅ [Delivered] = Returned iv' None [Delivered]
      ∧ iv' !! 0 = Some (MFloat 1).
Proof.
  assert (Forall (λ input : Route, is_Some (Value input))
            [ {| route_Name := "in"; Path := fetch_dot; Value := Some (MFloat 1);
                 C := 0 |} ]) as Hpin.
  { constructor; [by eexists|constructor]. }
  split; [exact Hpin|].
  destruct (pinned_inputs_need_no_message
              (with_routing (NewBlock copying 0)
                 (@Build_BlockRouting keys
                    [ {| route_Name := "in"; Path := fetch_dot;
                         Value := Some (MFloat 1); C := 0 |} ] [] 1))
              [Delivered] Hpin) as (iv' & Hrec & Hlook).
  exists iv'. split; [exact Hrec|]. exact (Hlook 0 _ eq_refl).
Defined.

Lemma receive_exits_on_path_error_only_witness :
  receive_from 0
    [ {| route_Name := "in"; Path := ["k"]; Value := None; C := 0 |} ] ∅
    [ Arrive (MFloat 1) ] = Exited (<[0 := MNil]> ∅) "no object at k"
  ∧ ∃ (input : Route) m v,
      input ∈ [ {| route_Name := "in"; Path := ["k"]; Value := None; C := 0 |} ]
      ∧ fetch_Run (Path input) m = (v, Some "no object at k").
Proof.
  split; [reflexivity|].
  exact (receive_exits_on_path_error_only
           [ {| route_Name := "in"; Path := ["k"]; Value := None; C := 0 |} ]
           0 ∅ (<[0 := MNil]> ∅) [ Arrive (MFloat 1) ] "no object at k" eq_refl).
Defined.

Lemma Connect_then_Disconnect_witness :
  routing_Outputs (routing (NewBlock copying 0)) !! 0
    = Some {| out_Name := "out"; Connections := ∅ |}
  ∧ (call (Connect 0 7) (routing (NewBlock copying 0))
       ≫= λ x, call (Disconnect 0 7) x.1)
    = Some (routing (NewBlock copying 0), true).
Proof.
  split; [reflexivity|].
  apply (Connect_then_Disconnect (routing (NewBlock copying 0)) 0
           {| out_Name := "out"; Connections := ∅ |} 7 eq_refl).
  apply not_elem_of_empty.
Defined.

Lemma RoutePath_unpins_witness :
  Input (NewBlock copying 0) 0
    = Some {| route_Name := "in"; Path := fetch_dot; Value := None; C := 0 |}
  ∧ ∃ r1 r2,
      call (RouteValue 0 (MFloat 1)) (routing (NewBlock copying 0))
        = Some (r1, true)
      ∧ Input (with_routing (NewBlock copying 0) r1) 0
          = Some {| route_Name := "in"; Path := fetch_dot; Value := Some (MFloat 1);
                    C := 0 |}
      ∧ call (RoutePath 0 ["k"]) r1 = Some (r2, true)
      ∧ Input (with_routing (NewBlock copying 0) r2) 0
          = Some {| route_Name := "in"; Path := ["k"]; Value := None; C := 0 |}.
Proof.
  split; [reflexivity|].
  destruct (RoutePath_unpins (NewBlock copying 0) 0
              {| route_Name := "in"; Path := fetch_dot; Value := None; C := 0 |}
              (MFloat 1) ["k"] eq_refl)
    as (r1 & r2 & H1 & H2 & H3 & H4 & _).
  exists r1, r2. repeat split; assumption.
Defined.

Lemma Serve_returns_after_Stop_only_witness :
  exit (Serve 2 (NewBlock copying 0) [Interrupted (Connect 0 7); Interrupted Stop])
    = Stopped
  ∧ ∃ log,
      trace (Serve 2 (NewBlock copying 0)
               [Interrupted (Connect 0 7); Interrupted Stop])
        = log ++ [Called Stop false].
Proof.
  split; [reflexivity|].
  apply (Serve_returns_after_Stop_only 2 (NewBlock copying 0)
           [Interrupted (Connect 0 7); Interrupted Stop]).
  reflexivity.
Defined.

Lemma kernel_runs_on_full_inputs_witness :
  Serve 2 (with_kernel (NewBlock copying 0)
             (λ inp out i,
                match inp !! 0 with
                | Some m => Returned (<[0 := m]> out) None i
                | None => Panicked IndexOutOfRange
                end))
    [Interrupted (Connect 0 7); Arrive (MFloat 1); Delivered]
  = run_with_kernel
      (λ inp out i,
         match inp !! 0 with
         | Some m => Returned (<[0 := m]> out) None i
         | None => Panicked IndexOutOfRange
         end)
      (Serve 2 (with_kernel (NewBlock copying 0) (Kernel copying))
         [Interrupted (Connect 0 7); Arrive (MFloat 1); Delivered]).
Proof.
  apply (kernel_runs_on_full_inputs (Kernel copying)).
  intros inp out i Hfull.
  destruct (Hfull 0 (le_n 1)) as [m Hm].
  simpl. unfold index. rewrite Hm. reflexivity.
Defined.

Lemma sends_follow_the_kernel_witness :
  Processed (state (NewBlock waiting 0)) = false
  ∧ ∃ pre post,
      [Invoked (Some (Connect 0 7)); Called (Connect 0 7) true;
       Invoked None; Sent 0 7 (MFloat 1)] = pre ++ Invoked None :: post
      ∧ sends pre = [].
Proof.
  split; [reflexivity|].
  apply (sends_follow_the_kernel
           2 (NewBlock waiting 0)
           [Arrive (MFloat 1); Interrupted (Connect 0 7); TimerFired; Delivered]
           ([Invoked (Some (Connect 0 7)); Called (Connect 0 7) true;
             Invoked None; Sent 0 7 (MFloat 1)],
            [ {| out_Name := "passthrough"; Connections := {[ 7 ]} |} ])).
  - reflexivity.
  - vm_compute. left.
Defined.

Lemma same_message_to_every_connection_witness :
  (λ cyc : list Obs * list Output, cyc.1)
    <$> cycles (trace (Serve 4 (NewBlock copying 0)
                         [Interrupted (Connect 0 7); Interrupted (Connect 0 8);
                          Arrive (MFloat 1); Delivered;
                          Interrupted (RouteValue 0 (MFloat 5)); Delivered]))
  = [ [Called (Connect 0 7) true; Called (Connect 0 8) true; Invoked None;
       Sent 0 8 (MFloat 1); Called (RouteValue 0 (MFloat 5)) true;
       Sent 0 7 (MFloat 1)] ]
  ∧ MFloat 1 = MFloat 1.
Proof.
  split; [vm_compute; reflexivity|].
  apply (same_message_to_every_connection
           4 (NewBlock copying 0)
           [Interrupted (Connect 0 7); Interrupted (Connect 0 8);
            Arrive (MFloat 1); Delivered;
            Interrupted (RouteValue 0 (MFloat 5)); Delivered]
           ([Called (Connect 0 7) true; Called (Connect 0 8) true; Invoked None;
             Sent 0 8 (MFloat 1); Called (RouteValue 0 (MFloat 5)) true;
             Sent 0 7 (MFloat 1)],
            [ {| out_Name := "out"; Connections := {[ 8 ]} ∪ {[ 7 ]} |} ])
           0 8 7).
  - reflexivity.
  - vm_compute. left.
  - do 3 right. left.
  - do 5 right. left.
Defined.

Lemma no_second_message_witness :
  manifest (state (NewBlock latching 0)) = ∅
  ∧ sent_to 0 7 [Called (Connect 0 7) true; Called (Connect 1 7) true;
                 Invoked None; Sent 0 7 (MFloat 1)] ≤ 1.
Proof.
  split; [reflexivity|].
  apply (no_second_message
           3 (NewBlock latching 0)
           [Interrupted (Connect 0 7); Interrupted (Connect 1 7);
            Arrive (MFloat 1); Delivered]
           ([Called (Connect 0 7) true; Called (Connect 1 7) true;
             Invoked None; Sent 0 7 (MFloat 1)],
            [ {| out_Name := "out"; Connections := {[ 7 ]} |};
              {| out_Name := "out"; Connections := {[ 7 ]} |} ])).
  - reflexivity.
  - vm_compute. left.
Defined.

Lemma completed_cycle_is_connected_witness :
  manifest (state (NewBlock copying 0)) = ∅
  ∧ size (Connections {| out_Name := "out"; Connections := {[ 7 ]} |}) ≠ 0.
Proof.
  split; [reflexivity|].
  apply (completed_cycle_is_connected
           2 (NewBlock copying 0)
           [Interrupted (Connect 0 7); Arrive (MFloat 1); Delivered]
           ([Called (Connect 0 7) true; Invoked None; Sent 0 7 (MFloat 1)],
            [ {| out_Name := "out"; Connections := {[ 7 ]} |} ])).
  - reflexivity.
  - vm_compute. left.
  - left.
Defined.

Lemma new_block_waits_for_connections_witness :
  0 < length (Outputs copying)
  ∧ cycles (trace (Serve 2 (NewBlock copying 0)
                     [Interrupted (Connect 0 7); Arrive (MFloat 1); Delivered]))
    ≠ []
  ∧ ∃ c, Called (Connect 0 c) true
           ∈ trace (Serve 2 (NewBlock copying 0)
                      [Interrupted (Connect 0 7); Arrive (MFloat 1); Delivered]).
Proof.
  split; [simpl; lia|]. split; [vm_compute; discriminate|].
  apply (new_block_waits_for_connections copying 0 2
           [Interrupted (Connect 0 7); Arrive (MFloat 1); Delivered] 0).
  - simpl. lia.
  - vm_compute. discriminate.
Defined.

Lemma Head_then_Append_rotates_witness :
  1 ≤ length [MFloat 1; MFloat 2; MFloat 3]
  ∧ ∃ split joined,
      Kernel Head 0 {[ 0 := MArray [MFloat 1; MFloat 2; MFloat 3] ]} ∅ ∅ ∅ []
        = Returned (split, ∅) None []
      ∧ Kernel Append 1 {[ 0 := index split 0; 1 := index split 1 ]} ∅ ∅ ∅ []
          = Returned (joined, ∅) None []
      ∧ joined !! 0 = Some (MArray (rotate 1 [MFloat 1; MFloat 2; MFloat 3])).
Proof.
  split; [simpl; lia|].
  apply (Head_then_Append_rotates 0 1 [MFloat 1; MFloat 2; MFloat 3]
           ∅ ∅ ∅ ∅ ∅ ∅ [] []).
  simpl. lia.
Defined.

Lemma cycle_starts_clean_witness :
  at_cycle_start
    (Serve 2 (NewBlock copying 0)
       [Interrupted (Connect 0 7); Arrive (MFloat 1); Delivered])
  ∧ state (final (Serve 2 (NewBlock copying 0)
                    [Interrupted (Connect 0 7); Arrive (MFloat 1); Delivered]))
    = {| inputValues := ∅; outputValues := ∅; manifest := ∅;
         Processed := false |}.
Proof.
  assert (at_cycle_start
            (Serve 2 (NewBlock copying 0)
               [Interrupted (Connect 0 7); Arrive (MFloat 1); Delivered]))
    as Hstart.
  { split; [reflexivity|]. right.
    exists [Called (Connect 0 7) true; Invoked None; Sent 0 7 (MFloat 1)],
           [ {| out_Name := "out"; Connections := {[ 7 ]} |} ].
    vm_compute. reflexivity. }
  split; [exact Hstart|].
  exact (cycle_starts_clean copying 0 2
           [Interrupted (Connect 0 7); Arrive (MFloat 1); Delivered] Hstart).
Defined.

